(** * flyemflows / DVIDSparkServices: bricks, grids and segmentation stitching

    A shallow embedding of
      - [DVIDSparkServices/io_util/brick.py]   (Grid, Brick, split / assemble / pad),
      - [DVIDSparkServices/reconutils/Segmentor.py] (stitch),
      - [flyemflows/util/util.py]              (downsample),
    together with the properties stated about them.

    Coordinates are numpy [int64] values: they are integers of [Z], and the
    sums, differences and products that numpy computes on them are written
    with their wrap-around ([wrap64]).  Voxel values are integers of the
    dtype of their array.  Python exceptions are modelled by the [res] error
    monad. *)

From Stdlib Require Import ZArith List Lia Bool String.
From stdpp Require Import base option list gmap sets.

Import ListNotations.
Local Open Scope Z_scope.

(** ** Exceptions *)

Inductive exn : Type :=
  | AssertionError (msg : string)
  | ValueError (msg : string)
  | IndexError (msg : string)
  | KeyError (msg : string)
  | ZeroDivisionError (msg : string)
  | Exception (msg : string).

Inductive res (A : Type) : Type :=
  | Ok (a : A)
  | Raise (e : exn).
Arguments Ok {A} a.
Arguments Raise {A} e.

Definition rbind {A B} (m : res A) (k : A -> res B) : res B :=
  match m with
  | Ok a => k a
  | Raise e => Raise e
  end.

Notation "x <-- m ;; k" := (rbind m (fun x => k))
  (at level 100, m at next level, right associativity).

(** [assert cond, msg] *)
Definition assert_ (c : bool) (msg : string) : res unit :=
  if c then Ok tt else Raise (AssertionError msg).

Fixpoint rmapM {A B} (f : A -> res B) (l : list A) : res (list B) :=
  match l with
  | [] => Ok []
  | a :: l' => b <-- f a ;; bs <-- rmapM f l' ;; Ok (b :: bs)
  end.

(** ** Geometry: 3-vectors and boxes (ZYX order) *)

Record Vec3 : Type := mk3 { c0 : Z; c1 : Z; c2 : Z }.

Definition v3map (f : Z -> Z) (a : Vec3) : Vec3 :=
  mk3 (f (c0 a)) (f (c1 a)) (f (c2 a)).
Definition v3map2 (f : Z -> Z -> Z) (a b : Vec3) : Vec3 :=
  mk3 (f (c0 a) (c0 b)) (f (c1 a) (c1 b)) (f (c2 a) (c2 b)).
Definition v3all (p : Z -> bool) (a : Vec3) : bool :=
  p (c0 a) && p (c1 a) && p (c2 a).
Definition v3all2 (p : Z -> Z -> bool) (a b : Vec3) : bool :=
  p (c0 a) (c0 b) && p (c1 a) (c1 b) && p (c2 a) (c2 b).

Definition v3add := v3map2 Z.add.
Definition v3sub := v3map2 Z.sub.
Definition v3eqb := v3all2 Z.eqb.
Definition v3leb := v3all2 Z.leb.
Definition v3zero : Vec3 := mk3 0 0 0.

(** [a <= b] componentwise. *)
Definition v3le (a b : Vec3) : Prop := c0 a <= c0 b /\ c1 a <= c1 b /\ c2 a <= c2 b.

(** ** numpy [int64] arithmetic

    A box, a block shape and an offset are arrays of [int64]: [+], [-] and
    [*] on them wrap around silently. *)
Definition wrap64 (z : Z) : Z := (z + 2 ^ 63) mod 2 ^ 64 - 2 ^ 63.

Definition np_add (a b : Z) : Z := wrap64 (a + b).
Definition np_sub (a b : Z) : Z := wrap64 (a - b).
Definition np_mul (a b : Z) : Z := wrap64 (a * b).

(** numpy integer [//] and [%]: floor division with the sign of the divisor,
    and 0 (with a warning) when the divisor is 0.  The one quotient that does
    not fit, [-2^63 // -1], wraps. *)
Definition np_floordiv (a b : Z) : Z := if b =? 0 then 0 else wrap64 (a / b).
Definition np_mod (a b : Z) : Z := if b =? 0 then 0 else a mod b.

Definition v3add64 := v3map2 np_add.
Definition v3sub64 := v3map2 np_sub.
Definition v3mul64 := v3map2 np_mul.

(** A box is a pair (start, stop), half open. *)
Definition Box : Type := (Vec3 * Vec3)%type.

Definition box_shift_sub (b : Box) (v : Vec3) : Box := (v3sub (fst b) v, v3sub (snd b) v).
Definition box_shift_add (b : Box) (v : Vec3) : Box := (v3add (fst b) v, v3add (snd b) v).

(** [box - v] and [box + v] as numpy computes them on [int64] arrays. *)
Definition box_shift_sub64 (b : Box) (v : Vec3) : Box := (v3sub64 (fst b) v, v3sub64 (snd b) v).
Definition box_shift_add64 (b : Box) (v : Vec3) : Box := (v3add64 (fst b) v, v3add64 (snd b) v).
Definition box_eqb (a b : Box) : bool := v3eqb (fst a) (fst b) && v3eqb (snd a) (snd b).

(** The point [p] lies in the half-open box [b]. *)
Definition in_box (p : Vec3) (b : Box) : Prop :=
  c0 (fst b) <= c0 p < c0 (snd b) /\
  c1 (fst b) <= c1 p < c1 (snd b) /\
  c2 (fst b) <= c2 p < c2 (snd b).

Definition in_boxb (p : Vec3) (b : Box) : bool :=
  v3leb (fst b) p && v3all2 Z.ltb p (snd b).

(** Modelled from the spec: [DVIDSparkServices.util.box_intersection] is not
    among the sources; section 4.G describes it as the componentwise max of
    the starts and the componentwise min of the stops. *)
Definition box_intersection (a b : Box) : Box :=
  (v3map2 Z.max (fst a) (fst b), v3map2 Z.min (snd a) (snd b)).

(** ** Grid *)

Record Grid : Type := mkGrid { block_shape : Vec3; offset : Vec3 }.

Definition modulus_offset (g : Grid) : Vec3 := v3map2 np_mod (offset g) (block_shape g).

Definition equivalent_to (g other_grid : Grid) : bool :=
  v3eqb (block_shape g) (block_shape other_grid) &&
  v3eqb (modulus_offset g) (modulus_offset other_grid).

Definition grid_positive (g : Grid) : Prop :=
  0 < c0 (block_shape g) /\ 0 < c1 (block_shape g) /\ 0 < c2 (block_shape g).

(** Python's [range(start, stop, step)]: a zero step raises [ValueError]. *)
Definition py_range_len (start stop step : Z) : Z :=
  if 0 <? step then Z.max 0 ((stop - start + step - 1) / step)
  else Z.max 0 ((start - stop - step - 1) / (- step)).

Definition py_range (start stop step : Z) : res (list Z) :=
  if step =? 0 then Raise (ValueError "range() arg 3 must not be zero")
  else Ok (map (fun k => start + Z.of_nat k * step)
               (seq 0 (Z.to_nat (py_range_len start stop step)))).

(** Modelled from the spec: [DVIDSparkServices.util.ndrange] is not among the
    sources; it is [np.ndindex] with a start, a stop and a step, that is the
    product of the three ranges in lexicographic (z, y, x) order
    (section 4.G: "Order: lexicographic by (z, y, x) block index"). *)
Definition ndrange (start stop step : Vec3) : res (list Vec3) :=
  zs <-- py_range (c0 start) (c0 stop) (c0 step) ;;
  ys <-- py_range (c1 start) (c1 stop) (c1 step) ;;
  xs <-- py_range (c2 start) (c2 stop) (c2 step) ;;
  Ok (flat_map (fun z => flat_map (fun y => map (fun x => mk3 z y x) xs) ys) zs).

Definition _boxes_from_grid_no_offset (bounding_box : Box) (block_shape : Vec3) : res (list Box) :=
  (* round down, round up *)
  let aligned_start :=
    v3mul64 (v3map2 np_floordiv (fst bounding_box) block_shape) block_shape in
  let aligned_stop :=
    v3mul64
      (v3map2 np_floordiv (v3sub64 (v3add64 (snd bounding_box) block_shape) (mk3 1 1 1))
              block_shape)
      block_shape in
  starts <-- ndrange aligned_start aligned_stop block_shape ;;
  Ok (map (fun block_start => (block_start, v3add64 block_start block_shape)) starts).

Definition boxes_from_grid (bounding_box : Box) (grid : Grid) : res (list Box) :=
  if v3eqb (offset grid) v3zero then
    (* Shortcut *)
    _boxes_from_grid_no_offset bounding_box (block_shape grid)
  else
    boxes <-- _boxes_from_grid_no_offset (box_shift_sub64 bounding_box (offset grid))
                                          (block_shape grid) ;;
    Ok (map (fun box => box_shift_add64 box (offset grid)) boxes).

Definition clipped_boxes_from_grid (bounding_box : Box) (grid : Grid) : res (list Box) :=
  boxes <-- boxes_from_grid bounding_box grid ;;
  Ok (map (fun box => box_intersection box bounding_box) boxes).

(** The block of [grid] with integer index [k]: it starts at
    [offset + k * block_shape] (section 3, Grid). *)
Definition grid_block (grid : Grid) (k : Vec3) : Box :=
  let start := v3add (offset grid) (v3map2 Z.mul k (block_shape grid)) in
  (start, v3add start (block_shape grid)).

(** The index of the block of [grid] that holds the point [p]. *)
Definition grid_index_of (grid : Grid) (p : Vec3) : Vec3 :=
  v3map2 Z.div (v3sub p (offset grid)) (block_shape grid).

(** The block indices that [boxes_from_grid bb grid] runs over. *)
Definition index_in_range (bb : Box) (grid : Grid) (k : Vec3) : Prop :=
  let lo := v3map2 Z.div (v3sub (fst bb) (offset grid)) (block_shape grid) in
  let hi := v3map2 Z.div
              (v3map2 Z.sub (v3add (v3sub (snd bb) (offset grid)) (block_shape grid)) (mk3 1 1 1))
              (block_shape grid) in
  (c0 lo <= c0 k < c0 hi) /\ (c1 lo <= c1 k < c1 hi) /\ (c2 lo <= c2 k < c2 hi).

(** Two boxes share no point. *)
Definition boxes_disjoint (a b : Box) : Prop := forall p, ~ (in_box p a /\ in_box p b).

(** ** Volumes

    The element type of an array.  Voxel values (grayscale or label data)
    are integers, and the dtype is one of numpy's integer types.  A value
    written into an array is cast to the dtype of the array; for integers
    this is the reduction modulo [2 ^ bits]. *)

Inductive np_dtype : Type :=
  | uint8 | uint16 | uint32 | uint64
  | int8 | int16 | int32 | int64.

Definition dtype_bits (dt : np_dtype) : Z :=
  match dt with
  | uint8 | int8 => 8
  | uint16 | int16 => 16
  | uint32 | int32 => 32
  | uint64 | int64 => 64
  end.

Definition dtype_signed (dt : np_dtype) : bool :=
  match dt with
  | int8 | int16 | int32 | int64 => true
  | _ => false
  end.

Definition dtype_cast (dt : np_dtype) (z : Z) : Z :=
  let m := 2 ^ dtype_bits dt in
  if dtype_signed dt then (z + m / 2) mod m - m / 2 else z mod m.

(** A numpy array of three dimensions: its shape, its dtype and its voxels,
    addressed by their index. *)
Record ndarray : Type := mkArray { shape : Vec3; dtype : np_dtype; data : Vec3 -> Z }.

Definition shape_ok (sh : Vec3) : Prop := v3le v3zero sh.


(** [np.zeros(shape, dtype)]: numpy refuses a negative dimension. *)
Definition np_zeros (sh : Vec3) (dt : np_dtype) : res ndarray :=
  if v3leb v3zero sh then Ok (mkArray sh dt (fun _ => 0))
  else Raise (ValueError "negative dimensions are not allowed").

Definition box_extent (b : Box) : Vec3 := v3sub (snd b) (fst b).

(** [box[1] - box[0]] as numpy computes it. *)
Definition box_extent64 (b : Box) : Vec3 := v3sub64 (snd b) (fst b).

(** Modelled from the spec: [DVIDSparkServices.util.extract_subvol] is not
    among the sources; section 4.P calls it "the sub-buffer
    [B.volume[split_box - B.physical_box[0]]]".  The slice of a numpy array
    between [box[0]] and [box[1]] has the extent of the box (0 where the
    slice is empty) and holds the voxels of the array shifted by [box[0]]. *)
Definition extract_subvol (array : ndarray) (box : Box) : ndarray :=
  mkArray (v3map (Z.max 0) (box_extent box)) (dtype array)
          (fun p => data array (v3add p (fst box))).

(** Modelled from the spec: [DVIDSparkServices.util.overwrite_subvol] is not
    among the sources; sections 4.P and 4.H say that it overwrites ("blits")
    the sub-array into the array at the relative offset given by the box:
    [array[box] = subarray].  The array keeps its dtype: numpy casts the
    values it writes.  The sub-array is taken to have the shape of the box
    (numpy refuses another shape unless it can be broadcast). *)
Definition overwrite_subvol (array : ndarray) (box : Box) (subarray : ndarray) : ndarray :=
  mkArray (shape array) (dtype array)
          (fun p => if in_boxb p box
                    then dtype_cast (dtype array) (data subarray (v3sub p (fst box)))
                    else data array p).

(** ** Brick *)

Record Brick : Type := mkBrick {
  logical_box : Box;
  physical_box : Box;
  volume : ndarray
}.

(** [Brick.__init__] with its three assertions. *)
Definition Brick_init (logical_box physical_box : Box) (volume : ndarray) : res Brick :=
  _ <-- assert_ (v3eqb (v3sub (snd physical_box) (fst physical_box)) (shape volume))
                "physical_box shape differs from volume.shape" ;;
  _ <-- assert_ (v3leb (fst logical_box) (fst physical_box))
                "physical_box[0] < logical_box[0]" ;;
  _ <-- assert_ (v3leb (snd physical_box) (snd logical_box))
                "physical_box[1] > logical_box[1]" ;;
  Ok (mkBrick logical_box physical_box volume).

(** The integrity invariant of a brick (section 3): the volume has the shape
    of the physical box and the physical box lies in the logical box. *)
Definition brick_invariant (b : Brick) : Prop :=
  shape (volume b) = box_extent (physical_box b) /\
  v3le (fst (logical_box b)) (fst (physical_box b)) /\
  v3le (snd (physical_box b)) (snd (logical_box b)).

(** A brick as Python holds it: the invariant, and a numpy shape, which is
    never negative. *)
Definition brick_ok (b : Brick) : Prop :=
  shape_ok (shape (volume b)) /\ brick_invariant b.

(** The voxel of a brick at the global coordinate [p]. *)
Definition brick_voxel (b : Brick) (p : Vec3) : Z :=
  data (volume b) (v3sub p (fst (physical_box b))).

(** [generate_bricks_from_volume_source] without a SparkContext: one brick
    per block of the grid that meets the bounding box. *)
Definition generate_bricks_from_volume_source
    (bounding_box : Box) (grid : Grid) (volume_accessor_func : Box -> ndarray)
  : res (list Brick) :=
  boxes <-- boxes_from_grid bounding_box grid ;;
  let logical_and_physical_boxes :=
    map (fun box => (box, box_intersection box bounding_box)) boxes in
  rmapM (fun lp => Brick_init (fst lp) (snd lp) (volume_accessor_func (snd lp)))
        logical_and_physical_boxes.

(** ** Re-gridding: split, group, assemble *)

Definition split_brick (new_grid : Grid) (original_brick : Brick) : res (list (Box * Brick)) :=
  boxes <-- boxes_from_grid (physical_box original_brick) new_grid ;;
  rmapM (fun new_logical_box =>
           (* Physical intersection of original with new *)
           let split_box := box_intersection new_logical_box (physical_box original_brick) in
           (* Extract portion of original volume data that belongs to this new box *)
           let split_box_internal :=
             box_shift_sub64 split_box (fst (physical_box original_brick)) in
           let fragment_vol := extract_subvol (volume original_brick) split_box_internal in
           let key := new_logical_box in
           fragment_brick <-- Brick_init new_logical_box split_box fragment_vol ;;
           Ok (key, fragment_brick))
        boxes.

Definition v3min_list (l : list Vec3) (d : Vec3) : Vec3 := fold_left (v3map2 Z.min) l d.
Definition v3max_list (l : list Vec3) (d : Vec3) : Vec3 := fold_left (v3map2 Z.max) l d.

(** [np.min(physical_boxes[:,0,:], axis=0), np.max(physical_boxes[:,1,:], axis=0)]:
    the bounding hull of the physical boxes of a non-empty list of fragments. *)
Definition fragments_hull (frag0 : Brick) (others : list Brick) : Box :=
  (v3min_list (map (fun frag => fst (physical_box frag)) others) (fst (physical_box frag0)),
   v3max_list (map (fun frag => snd (physical_box frag)) others) (snd (physical_box frag0))).

Definition assemble_brick_fragments (fragments : list Brick) : res Brick :=
  match fragments with
  | [] => Raise (IndexError "index 0 is out of bounds for axis 0 with size 0")
  | frag0 :: others =>
      (* All logical boxes must be the same *)
      _ <-- assert_ (forallb (fun frag => box_eqb (logical_box frag) (logical_box frag0)) fragments)
                    "Cannot assemble brick fragments from different logical boxes." ;;
      let final_logical_box := logical_box frag0 in
      (* The final physical box is the min/max of all fragment physical extents. *)
      let final_physical_box := fragments_hull frag0 others in
      _ <-- assert_ (v3leb (fst final_logical_box) (fst final_physical_box))
                    "final_physical_box[0] < final_logical_box[0]" ;;
      _ <-- assert_ (v3leb (snd final_physical_box) (snd final_logical_box))
                    "final_physical_box[1] > final_logical_box[1]" ;;
      let final_volume_shape := box_extent64 final_physical_box in
      let dtype := dtype (volume frag0) in
      final_volume <-- np_zeros final_volume_shape dtype ;;
      let final_volume :=
        fold_left (fun vol frag =>
                     let internal_box :=
                       box_shift_sub64 (physical_box frag) (fst final_physical_box) in
                     overwrite_subvol vol internal_box (volume frag))
                  fragments final_volume in
      Brick_init final_logical_box final_physical_box final_volume
  end.

(** Modelled from the spec: [DVIDSparkServices.rddtools.group_by_key] is not
    among the sources; section 4.P, Group: the emitted pairs are shuffled by
    key and all fragments for a given key land in one group.  Groups are kept
    in the order in which their keys first occur, fragments in the order in
    which they were emitted. *)
Fixpoint insert_group (key : Box) (frag : Brick) (groups : list (Box * list Brick))
  : list (Box * list Brick) :=
  match groups with
  | [] => [(key, [frag])]
  | (k, frags) :: rest =>
      if box_eqb key k then (k, frags ++ [frag]) :: rest
      else (k, frags) :: insert_group key frag rest
  end.

Definition group_by_key (pairs : list (Box * Brick)) : list (Box * list Brick) :=
  fold_left (fun groups kv => insert_group (fst kv) (snd kv) groups) pairs [].

(** [realign_bricks_to_new_grid] on an ordinary iterable of bricks:
    [rt.flat_map], [rt.group_by_key] and [rt.map_values]. *)
Definition realign_bricks_to_new_grid (new_grid : Grid) (original_bricks : list Brick)
  : res (list (Box * Brick)) :=
  (* For each original brick, split it up according
     to the new logical box destinations it will map to. *)
  per_brick <-- rmapM (split_brick new_grid) original_bricks ;;
  let new_logical_boxes_and_brick_fragments := concat per_brick in
  (* Group fragments according to their new homes *)
  let grouped_brick_fragments := group_by_key new_logical_boxes_and_brick_fragments in
  (* Re-assemble fragments into the new grid structure. *)
  rmapM (fun kv => brick <-- assemble_brick_fragments (snd kv) ;; Ok (fst kv, brick))
        grouped_brick_fragments.

(** ** Halo padding *)

Definition v3get (v : Vec3) (axis : nat) : Z :=
  match axis with O => c0 v | S O => c1 v | _ => c2 v end.
Definition v3set (v : Vec3) (axis : nat) (x : Z) : Vec3 :=
  match axis with
  | O => mk3 x (c1 v) (c2 v)
  | S O => mk3 (c0 v) x (c2 v)
  | _ => mk3 (c0 v) (c1 v) x
  end.

(** [((box - grid.offset) % block_shape == 0).all()] *)
Definition box_aligned (box : Box) (grid : Grid) : bool :=
  v3eqb (v3map2 np_mod (v3sub64 (fst box) (offset grid)) (block_shape grid)) v3zero &&
  v3eqb (v3map2 np_mod (v3sub64 (snd box) (offset grid)) (block_shape grid)) v3zero.

Definition halo_boxes_of (orig_box padded_box : Box) : list Box :=
  flat_map (fun axis =>
              (if v3get (fst orig_box) axis =? v3get (fst padded_box) axis then []
               else [ (fst padded_box, v3set (snd padded_box) axis (v3get (fst orig_box) axis)) ])
              ++
              (if v3get (snd orig_box) axis =? v3get (snd padded_box) axis then []
               else [ (v3set (fst padded_box) axis (v3get (snd orig_box) axis), snd padded_box) ]))
           [0%nat; 1%nat; 2%nat].

Definition pad_brick_data_from_volume_source
    (padding_grid : Grid) (volume_accessor_func : Box -> ndarray) (brick : Brick) : res Brick :=
  let block_shape := block_shape padding_grid in
  _ <-- assert_ (box_aligned (logical_box brick) padding_grid)
                "Padding grid must be aligned with brick logical_box" ;;
  (* Subtract offset to calculate the needed padding *)
  let offset_physical_box := box_shift_sub64 (physical_box brick) (offset padding_grid) in
  if box_aligned (physical_box brick) padding_grid then
    (* Internal data is already aligned to the padding_grid. *)
    Ok brick
  else
    let offset_padded_box : Box :=
      (v3mul64 (v3map2 np_floordiv (fst offset_physical_box) block_shape) block_shape,
       v3mul64
         (v3map2 np_floordiv
            (v3sub64 (v3add64 (snd offset_physical_box) block_shape) (mk3 1 1 1))
            block_shape)
         block_shape) in
    (* Re-add offset *)
    let padded_box := box_shift_add64 offset_padded_box (offset padding_grid) in
    _ <-- assert_ (v3leb (fst (logical_box brick)) (fst padded_box)) "padded_box[0]" ;;
    _ <-- assert_ (v3leb (snd padded_box) (snd (logical_box brick))) "padded_box[1]" ;;
    (* Initialize a new volume of the fully-padded shape *)
    let padded_volume_shape := box_extent64 padded_box in
    padded_volume <-- np_zeros padded_volume_shape (dtype (volume brick)) ;;
    (* Overwrite the previously existing data in the new padded volume *)
    let orig_box := physical_box brick in
    let orig_box_within_padded := box_shift_sub64 orig_box (fst padded_box) in
    let padded_volume := overwrite_subvol padded_volume orig_box_within_padded (volume brick) in
    (* Check for a non-zero-volume halo on all six sides. *)
    let halo_boxes := halo_boxes_of orig_box padded_box in
    _ <-- assert_ (negb (Nat.eqb (length halo_boxes) 0))
                  "How could halo_boxes be empty if there was padding needed?" ;;
    let padded_volume :=
      fold_left (fun vol halo_box =>
                   (* Retrieve padding data for one halo side *)
                   let halo_volume := volume_accessor_func halo_box in
                   (* Overwrite in the final padded volume *)
                   let halo_box_within_padded := box_shift_sub64 halo_box (fst padded_box) in
                   overwrite_subvol vol halo_box_within_padded halo_volume)
                halo_boxes padded_volume in
    Brick_init (logical_box brick) padded_box padded_volume.

(** Bricks are Python objects.  On a store that holds the bricks by
    reference (a reference is a position of the list), [return brick] hands
    back the reference that was passed in and leaves the store as it is,
    while [Brick(...)] creates a new object. *)
Definition pad_brick_data_from_volume_source_ref
    (padding_grid : Grid) (volume_accessor_func : Box -> ndarray)
    (brick : nat) (heap : list Brick) : res (nat * list Brick) :=
  match heap !! brick with
  | None => Raise (KeyError "no such brick")
  | Some b =>
      _ <-- assert_ (box_aligned (logical_box b) padding_grid)
                    "Padding grid must be aligned with brick logical_box" ;;
      if box_aligned (physical_box b) padding_grid then
        (* Internal data is already aligned to the padding_grid. *)
        Ok (brick, heap)
      else
        padded <-- pad_brick_data_from_volume_source padding_grid volume_accessor_func b ;;
        Ok (length heap, heap ++ [padded])
  end.

(** The physical boxes of the fragments at two different positions of the
    list share no point. *)
Definition pairwise_disjoint (fragments : list Brick) : Prop :=
  ForallOrdPairs (fun a b => boxes_disjoint (physical_box a) (physical_box b)) fragments.

(** The fragment that [split_brick] cuts out of a brick for one new logical box. *)
Definition split_fragment (original_brick : Brick) (new_logical_box : Box) : Brick :=
  let split_box := box_intersection new_logical_box (physical_box original_brick) in
  mkBrick new_logical_box split_box
          (extract_subvol (volume original_brick)
                          (box_shift_sub split_box (fst (physical_box original_brick)))).

(** The fragments emitted under the key [key], in the order of emission. *)
Definition fragments_for (key : Box) (pairs : list (Box * Brick)) : list Brick :=
  map snd (List.filter (fun kv => box_eqb (fst kv) key) pairs).

(** A wall of bricks on a grid (section 3, BrickWall): every brick satisfies
    the brick invariant, its logical box is a block of the grid, and no two
    bricks share a logical box. *)
Definition wall_on_grid (grid : Grid) (bricks : list Brick) : Prop :=
  Forall brick_ok bricks /\
  Forall (fun b => exists k, logical_box b = grid_block grid k) bricks /\
  List.NoDup (map logical_box bricks).


(** The voxel that a wall holds at [p]: that of the first brick whose
    physical box covers [p]. *)
Definition wall_voxel (bricks : list Brick) (p : Vec3) : option Z :=
  match List.find (fun b => in_boxb p (physical_box b)) bricks with
  | Some b => Some (brick_voxel b p)
  | None => None
  end.

(** ** Downsampling ([flyemflows/util/util.py]) *)

Definition DOWNSAMPLE_METHODS : list string :=
  ["subsample"; "zoom"; "grayscale"; "mode"; "labels"; "label"]%string.

Definition unaligned_downsample_msg : string :=
  "Volume dimensions must be a multiple of the downsample factor.".

(** [volume[::factor, ::factor, ::factor].copy('C')]: a slice with a step.
    A positive step picks the voxels 0, factor, 2*factor, ...; a negative
    step walks down from the last voxel; a zero step raises [ValueError]. *)
Definition strided_len (n step : Z) : Z :=
  if 0 <? step then (n + step - 1) / step else (n - step - 1) / (- step).
Definition strided_index (n step i : Z) : Z :=
  if 0 <? step then i * step else (n - 1) + i * step.

Definition subsample (volume : ndarray) (factor : Z) : res ndarray :=
  if factor =? 0 then Raise (ValueError "slice step cannot be zero")
  else Ok (mkArray (v3map (fun n => strided_len n factor) (shape volume)) (dtype volume)
                   (fun p => data volume
                               (v3map2 (fun n i => strided_index n factor i) (shape volume) p))).

Section Downsample.
(** [scipy.ndimage.zoom] and [dvidutils.downsample_labels] are libraries
    outside the repository: what they return, or raise, is not determined by
    the program.  [scipy_ndimage_zoom volume factor] stands for
    [scipy.ndimage.zoom(volume, 1/factor)]. *)
Variable scipy_ndimage_zoom : ndarray -> Z -> res ndarray.
Variable downsample_labels : ndarray -> Z -> bool -> res ndarray.

Definition string_in (s : string) (l : list string) : bool := existsb (String.eqb s) l.

Definition downsample (volume : ndarray) (factor : Z) (method : string) : res ndarray :=
  _ <-- assert_ (string_in method DOWNSAMPLE_METHODS) "" ;;
  _ <-- assert_ (v3all (fun n => np_mod n factor =? 0) (shape volume))
                unaligned_downsample_msg ;;
  if String.eqb method "subsample" then
    subsample volume factor
  else if string_in method ["zoom"; "grayscale"]%string then (* synonyms *)
    if factor =? 0 then Raise (ZeroDivisionError "division by zero")
    else scipy_ndimage_zoom volume factor
  else if String.eqb method "mode" then
    downsample_labels volume factor false
  else if string_in method ["labels"; "label"]%string then (* synonyms *)
    downsample_labels volume factor true
  else
    Raise (AssertionError "Shouldn't get here.").
End Downsample.


(** ** Collections of bricks and label maps ([brick.py], [apply_labelmap_to_bricks])

    An RDD is an object of the Spark driver: it is known by its identity,
    holds references to its bricks, and may be persisted (cached).  Bricks
    are objects too: two collections may hold the same brick. *)

Record RDD : Type := mkRDD {
  rdd_items : list nat;      (* references to the bricks, in order *)
  rdd_persisted : bool
}.

Record Spark : Type := mkSpark {
  rdds : gmap nat RDD;       (* the collections, by identity *)
  heap : gmap nat Brick;     (* the bricks, by reference *)
  next_rdd : nat             (* the identity of the next collection *)
}.

(** Every collection of the driver was created before [next_rdd]. *)
Definition spark_ok (s : Spark) : Prop :=
  forall id, is_Some (rdds s !! id) -> (id < next_rdd s)%nat.

(** Modelled from the spec: [DVIDSparkServices.rddtools.map] is not among the
    sources; on an RDD it is [rdd.map(f)], a new collection (section 4.M:
    "a distinct collection referencing the same bricks" when [f] returns its
    argument).  The new collection is not persisted. *)
Definition rt_map (f : nat -> nat) (bricks : nat) (s : Spark) : res (nat * Spark) :=
  match rdds s !! bricks with
  | None => Raise (KeyError "no such RDD")
  | Some r =>
      let new_id := next_rdd s in
      Ok (new_id,
          mkSpark (<[new_id := mkRDD (map f (rdd_items r)) false]> (rdds s))
                  (heap s) (S new_id))
  end.

(** Modelled from the spec: [DVIDSparkServices.util.unpersist] is not among
    the sources; section 4.W: "release cache". *)
Definition unpersist (bricks : nat) (s : Spark) : Spark :=
  match rdds s !! bricks with
  | None => s
  | Some r => mkSpark (<[bricks := mkRDD (rdd_items r) false]> (rdds s)) (heap s) (next_rdd s)
  end.

(** Modelled from the spec: [dvidutils.LabelMapper] is a library outside the
    repository; section 4.M: duplicates in the domain are refused, and with
    [allow_unmapped=True] a label outside the domain passes through. *)
Fixpoint mapper_lookup (mapping_pairs : list (Z * Z)) (label : Z) : Z :=
  match mapping_pairs with
  | [] => label
  | (orig, new) :: rest => if label =? orig then new else mapper_lookup rest label
  end.

Definition remap_volume (mapping_pairs : list (Z * Z)) (v : ndarray) : ndarray :=
  mkArray (shape v) (dtype v) (fun p => mapper_lookup mapping_pairs (data v p)).

Definition remap_brick (mapping_pairs : list (Z * Z)) (b : Brick) : Brick :=
  mkBrick (logical_box b) (physical_box b) (remap_volume mapping_pairs (volume b)).

Fixpoint has_duplicates (l : list Z) : bool :=
  match l with
  | [] => false
  | x :: rest => existsb (Z.eqb x) rest || has_duplicates rest
  end.

(** [apply_label_mapping]: the mapper is applied in place to the volume of
    each brick; the result is a new collection of the same bricks, already
    computed and persisted. *)
Definition apply_label_mapping (bricks : nat) (mapping_pairs : list (Z * Z)) (s : Spark)
  : res (nat * Spark) :=
  match rdds s !! bricks with
  | None => Raise (KeyError "no such RDD")
  | Some r =>
      _ <-- assert_ (negb (has_duplicates (map fst mapping_pairs))) "duplicate labels in domain" ;;
      let heap' :=
        fold_left (fun h ref =>
                     match h !! ref with
                     | Some b => <[ref := remap_brick mapping_pairs b]> h
                     | None => h
                     end)
                  (rdd_items r) (heap s) in
      let new_id := next_rdd s in
      Ok (new_id,
          mkSpark (<[new_id := mkRDD (rdd_items r) true]> (rdds s)) heap' (S new_id))
  end.

Record LabelMapConfig : Type := mkLabelMapConfig {
  file : string;
  file_type : string
}.

Section LabelMap.
(** [load_labelmap] reads (and may download and unpack) a CSV file: the
    mapping pairs it returns are not determined by the program. *)
Variable load_labelmap : LabelMapConfig -> string -> res (list (Z * Z)).

Definition apply_labelmap_to_bricks
    (bricks : nat) (labelmap_config : LabelMapConfig) (working_dir : string)
    (unpersist_original : bool) (s : Spark) : res (nat * Spark) :=
  let path := file labelmap_config in
  if String.eqb path "" then
    if negb unpersist_original then
      (* The caller wants to be sure that the result can be
         unpersisted safely without affecting the bricks he passed in,
         so we return a *new* RDD, even though it's just a copy of the original. *)
      rt_map (fun brick => brick) bricks s
    else Ok (bricks, s)
  else
    mapping_pairs <-- load_labelmap labelmap_config working_dir ;;
    r <-- apply_label_mapping bricks mapping_pairs s ;;
    let '(remapped_bricks, s) := r in
    let s := if unpersist_original then unpersist bricks s else s in
    Ok (remapped_bricks, s).
End LabelMap.

(** The bricks that a collection holds, with their data. *)
Definition rdd_bricks (s : Spark) (id : nat) : option (list (option Brick)) :=
  match rdds s !! id with
  | Some r => Some (map (fun ref => heap s !! ref) (rdd_items r))
  | None => None
  end.

(** ** Stitching ([reconutils/Segmentor.py], [Segmentor.stitch])

    Labels are unsigned integers ([numpy.uint64]); they are modelled as [N].
    The code is Python 2: [x2/2] is the floor division of integers, and a
    dictionary is iterated in an order that the language leaves open.  The
    model iterates a dictionary in the order of insertion; the properties
    proved below do not depend on that choice. *)

Record label_array : Type := mkLabels { lshape : Vec3; ldata : Vec3 -> N }.

Definition zrange (n : Z) : list Z := map Z.of_nat (seq 0 (Z.to_nat n)).

(** The indices of an array of the given shape, in C order
    ([numpy.ndenumerate], [numpy.ndindex]). *)
Definition ndindex (sh : Vec3) : list Vec3 :=
  flat_map (fun z => flat_map (fun y => map (fun x => mk3 z y x) (zrange (c2 sh)))
                              (zrange (c1 sh)))
           (zrange (c0 sh)).

Definition array_values (a : label_array) : list N := map (ldata a) (ndindex (lshape a)).

(** The values of [a[z1:z2, y1:y2, x1:x2]] (a slice is clipped to the array). *)
Definition slice_values (a : label_array) (lo hi : Vec3) : list N :=
  map (ldata a) (List.filter (fun p => in_boxb p (lo, hi)) (ndindex (lshape a))).

(** [numpy.unique]: the sorted values, each once. *)
Fixpoint insert_sorted (x : N) (l : list N) : list N :=
  match l with
  | [] => [x]
  | y :: l' => if (x <? y)%N then x :: l
               else if (x =? y)%N then l
               else y :: insert_sorted x l'
  end.
Definition np_unique (l : list N) : list N := fold_right insert_sorted [] l.

(** A Python dictionary with integer keys, in insertion order. *)
Definition dict (V : Type) : Type := list (N * V).

Fixpoint dict_get {V} (k : N) (d : dict V) : option V :=
  match d with
  | [] => None
  | (k', v) :: rest => if (k =? k')%N then Some v else dict_get k rest
  end.

Fixpoint dict_set {V} (k : N) (v : V) (d : dict V) : dict V :=
  match d with
  | [] => [(k, v)]
  | (k', v') :: rest => if (k =? k')%N then (k', v) :: rest else (k', v') :: dict_set k v rest
  end.

Record Roi : Type := mkRoi {
  roi_x1 : Z; roi_y1 : Z; roi_z1 : Z;
  roi_x2 : Z; roi_y2 : Z; roi_z2 : Z
}.

Record Subvolume : Type := mkSubvolume {
  roi_id : N;
  roi : Roi;
  max_id : N
}.

Definition hard_lb : Z := 50.
Definition liberal_lb : Z := 1000.

(** [max_val / float(total_val) < 0.90] and [... > 0.90].  The quotient of
    two voxel counts below 10^15 rounds to a double below (above) the double
    0.90 exactly when the rational quotient is below (above) 9/10, so the
    comparisons are those of the rationals. *)
Definition ratio_below_conservative (max_val total_val : Z) : bool :=
  10 * max_val <? 9 * total_val.
Definition ratio_above_conservative (max_val total_val : Z) : bool :=
  9 * total_val <? 10 * max_val.

(** The overlap votes: [body2body[outer][inner]] counts the voxels that hold
    [outer] on one side and [inner] on the other; a voxel that holds 0 on
    either side is skipped. *)
Definition count_vote (acc : res (dict (dict Z))) (vote : N * N) : res (dict (dict Z)) :=
  body2body <-- acc ;;
  let '(outer, inner) := vote in
  if (outer =? 0)%N || (inner =? 0)%N then Ok body2body
  else match dict_get outer body2body with
       | None => Raise (KeyError "body2body")
       | Some bodydict =>
           let n := default 0 (dict_get inner bodydict) in
           Ok (dict_set outer (dict_set inner (n + 1) bodydict) body2body)
       end.

Definition count_overlaps (bodies : list N) (votes : list (N * N)) : res (dict (dict Z)) :=
  let body2body := map (fun body => (body, @nil (N * Z)))
                       (List.filter (fun body => negb (body =? 0)%N) bodies) in
  fold_left count_vote votes (Ok body2body).

(** The best overlap of one label: [(bodysave, max_val, total_val)], with
    [None] for the [-1] that marks "nothing above [hard_lb]". *)
Definition best_step (st : option N * Z * Z) (item : N * Z) : option N * Z * Z :=
  let '(bodysave, max_val, total_val) := st in
  let '(body, val) := item in
  let total_val := total_val + val in
  if max_val <? val then (Some body, val, total_val)
  else (bodysave, max_val, total_val).

Definition best_overlap (bodydict : dict Z) : option N * Z * Z :=
  fold_left best_step bodydict (None, hard_lb, 0).

(** The state of the two loops that build the merge list. *)
Record merge_lists : Type := mkMergeLists {
  merge_list : list (N * N);
  mutual_list : gmap N (gmap N Z);
  retired_list : gset (N * N)
}.

(** One iteration of the first loop (over the labels of the second boundary). *)
Definition first_pass_step (stitch_mode : Z) (eligible_bodies : gset N)
    (st : merge_lists) (item : N * dict Z) : merge_lists :=
  let '(body2, bodydict) := item in
  if bool_decide (body2 ∈ eligible_bodies) then
    let '(bodysave, max_val, total_val) := best_overlap bodydict in
    match bodysave with
    | None => st   (* small_overlap_prune *)
    | Some bodysave =>
        if (stitch_mode =? 1) && ratio_below_conservative max_val total_val then
          st       (* conservative_prune *)
        else if (stitch_mode =? 3) && ratio_above_conservative max_val total_val
                && (liberal_lb <? max_val) then
          mkMergeLists (merge_list st ++ [(bodysave, body2)])
                       (mutual_list st)
                       (retired_list st ∪ {[ (bodysave, body2) ]})
        else
          mkMergeLists (merge_list st)
                       (<[bodysave := <[body2 := max_val]>
                                        (default ∅ (mutual_list st !! bodysave))]>
                          (mutual_list st))
                       (retired_list st)
    end
  else st.

(** One iteration of the second loop (over the labels of the first boundary). *)
Definition second_pass_step (stitch_mode : Z) (eligible_bodies : gset N)
    (st : merge_lists) (item : N * dict Z) : merge_lists :=
  let '(body1, bodydict) := item in
  if bool_decide (body1 ∈ eligible_bodies) then
    let '(bodysave, max_val, total_val) := best_overlap bodydict in
    match bodysave with
    | None => st   (* small_overlap_prune *)
    | Some bodysave =>
        if bool_decide ((body1, bodysave) ∈ retired_list st) then
          st       (* already in list *)
        else if (stitch_mode =? 1) && ratio_below_conservative max_val total_val then
          st       (* conservative_prune *)
        else if (stitch_mode =? 3) && ratio_above_conservative max_val total_val
                && (liberal_lb <? max_val) then
          mkMergeLists (merge_list st ++ [(body1, bodysave)]) (mutual_list st) (retired_list st)
        else
          match mutual_list st !! body1 with
          | Some partners =>
              match partners !! bodysave with
              | Some _ =>
                  mkMergeLists (merge_list st ++ [(body1, bodysave)])
                               (mutual_list st) (retired_list st)
              | None => st   (* not_mutual *)
              end
          | None => st       (* not_mutual *)
          end
    end
  else st.

Section Stitcher.
(** [Subvolume.touches] belongs to a class that is not among the sources. *)
Variable touches : Z -> Z -> Z -> Z -> bool.

(** The interface plane [[z1:z2, y1:y2, x1:x2]] of the two boundaries. *)
Definition interface_plane (subvolume1 subvolume2 : Subvolume) (sh : Vec3) : Box :=
  let '(z2, y2, x2) := (c0 sh, c1 sh, c2 sh) in
  let '(x1, x2) :=
    if touches (roi_x1 (roi subvolume1)) (roi_x2 (roi subvolume1))
               (roi_x1 (roi subvolume2)) (roi_x2 (roi subvolume2))
    then (x2 / 2, x2 / 2 + 1) else (0, x2) in
  let '(y1, y2) :=
    if touches (roi_y1 (roi subvolume1)) (roi_y2 (roi subvolume1))
               (roi_y1 (roi subvolume2)) (roi_y2 (roi subvolume2))
    then (y2 / 2, y2 / 2 + 1) else (0, y2) in
  let '(z1, z2) :=
    if touches (roi_z1 (roi subvolume1)) (roi_z2 (roi subvolume1))
               (roi_z1 (roi subvolume2)) (roi_z2 (roi subvolume2))
    then (z2 / 2, z2 / 2 + 1) else (0, z2) in
  (mk3 z1 y1 x1, mk3 z2 y2 x2).

(** The merge list of one boundary pair, before the offsets are added. *)
Definition local_merge_list (stitch_mode : Z) (subvolume1 subvolume2 : Subvolume)
    (boundary1 boundary2 : label_array) : res (list (N * N)) :=
  let plane := interface_plane subvolume1 subvolume2 (lshape boundary1) in
  let votes := combine (array_values boundary1) (array_values boundary2) in
  let eligible_bodies : gset N :=
    list_to_set (np_unique (slice_values boundary2 (fst plane) (snd plane))) in
  let label2_bodies := np_unique (array_values boundary2) in
  body2body <-- (if 0 <? stitch_mode
                 then count_overlaps label2_bodies (map (fun v => (snd v, fst v)) votes)
                 else Ok []) ;;
  (* create merge list *)
  let st := fold_left (first_pass_step stitch_mode eligible_bodies) body2body
                      (mkMergeLists [] ∅ ∅) in
  let eligible_bodies : gset N :=
    list_to_set (np_unique (slice_values boundary1 (fst plane) (snd plane))) in
  body2body <-- (if 0 <? stitch_mode
                 then count_overlaps (np_unique (array_values boundary1)) votes
                 else Ok []) ;;
  (* add to merge list *)
  let st := fold_left (second_pass_step stitch_mode eligible_bodies) body2body st in
  Ok (merge_list st).

Definition stitcher (stitch_mode : Z) (subvolume_offsets : gmap N N)
    (boundary_list : list (Subvolume * label_array)) : res (N * list (N * N)) :=
  match boundary_list with
  | [(sv_a, boundary_a); (sv_b, boundary_b)] =>
      (* order subvolume regions (they should be the same shape) *)
      let '(subvolume1, boundary1, subvolume2, boundary2) :=
        if (roi_id sv_b <? roi_id sv_a)%N
        then (sv_b, boundary_b, sv_a, boundary_a)
        else (sv_a, boundary_a, sv_b, boundary_b) in
      if negb (v3eqb (lshape boundary1) (lshape boundary2)) then
        Raise (Exception "Extracted boundaries are different shapes")
      else
        merges <-- local_merge_list stitch_mode subvolume1 subvolume2 boundary1 boundary2 ;;
        (* handle offsets in mergelist *)
        match subvolume_offsets !! roi_id subvolume1, subvolume_offsets !! roi_id subvolume2 with
        | Some offset1, Some offset2 =>
            Ok (roi_id subvolume1,
                map (fun merger => (fst merger + offset1, snd merger + offset2)%N) merges)
        | _, _ => Raise (KeyError "subvolume_offsets")
        end
  | _ => Raise (Exception "Expects exactly two subvolumes per boundary")
  end.
End Stitcher.

(** *** The global merge (the [body1body2] / [body2body1] loop) *)

(** [for tbody in body2body1[body1]]: every label that was mapped to [body1]
    is mapped to [body2]. *)
Definition retarget (body2 : N) (st : gmap N N * gmap N (gset N)) (tbody : N)
  : gmap N N * gmap N (gset N) :=
  (<[tbody := body2]> (fst st),
   <[body2 := default ∅ (snd st !! body2) ∪ {[ tbody ]}]> (snd st)).

Definition merge_step (st : gmap N N * gmap N (gset N)) (merger : N * N)
  : gmap N N * gmap N (gset N) :=
  let '(body1body2, body2body1) := st in
  (* body1 -> body2 *)
  let body1 := default (fst merger) (body1body2 !! fst merger) in
  let body2 := default (snd merger) (body1body2 !! snd merger) in
  let body2body1 :=
    match body2body1 !! body2 with
    | None => <[body2 := ∅]> body2body1
    | Some _ => body2body1
    end in
  (* add body1 to body2 map *)
  let body2body1 := <[body2 := default ∅ (body2body1 !! body2) ∪ {[ body1 ]}]> body2body1 in
  (* add body1 -> body2 mapping *)
  let body1body2 := <[body1 := body2]> body1body2 in
  match body2body1 !! body1 with
  | Some tbodies => fold_left (retarget body2) (elements tbodies) (body1body2, body2body1)
  | None => (body1body2, body2body1)
  end.

Definition global_merge (merge_list : list (N * N)) : gmap N N * gmap N (gset N) :=
  fold_left merge_step merge_list (∅, ∅).

(** [body2body = zip(body1body2.keys(), body1body2.values())] *)
Definition master_merge_list (merge_list : list (N * N)) : list (N * N) :=
  map_to_list (fst (global_merge merge_list)).

(** [body1body2.get(label, label)] *)
Definition find_label (body1body2 : gmap N N) (label : N) : N :=
  default label (body1body2 !! label).

(** The final label of a global label: the remap applied by [relabel]. *)
Definition stitch_final_label (merge_list : list (N * N)) (label : N) : N :=
  find_label (fst (global_merge merge_list)) label.

(** What the loop keeps true: every mapped label points to a label that is
    its own image, and is recorded in the set of that label; the set of a
    label that is its own image holds only labels mapped to it. *)
Definition merge_inv (st : gmap N N * gmap N (gset N)) : Prop :=
  (forall x r, fst st !! x = Some r ->
     find_label (fst st) r = r /\ exists S, snd st !! r = Some S /\ x ∈ S) /\
  (forall r S t, snd st !! r = Some S -> find_label (fst st) r = r -> t ∈ S ->
     fst st !! t = Some r).

(** Two labels are joined by a path of candidate edges. *)
Definition connected (merge_list : list (N * N)) : N -> N -> Prop :=
  Relation_Operators.clos_refl_sym_trans N (fun a b => In (a, b) merge_list).

(** The union-find of section 4.S, step 7, written from the spec's words:
    the representative of a label is the numerically smallest label of its
    connected component.  [component] collects the labels joined to [label]
    (one round per edge is enough), [uf_min_representative] takes the
    smallest. *)
Definition grow (merge_list : list (N * N)) (seen : list N) : list N :=
  fold_left (fun acc e =>
               let '(a, b) := e in
               let acc := if existsb (N.eqb a) acc && negb (existsb (N.eqb b) acc)
                          then acc ++ [b] else acc in
               if existsb (N.eqb b) acc && negb (existsb (N.eqb a) acc)
               then acc ++ [a] else acc)
            merge_list seen.

Definition component (merge_list : list (N * N)) (label : N) : list N :=
  Nat.iter (length merge_list) (grow merge_list) [label].

Definition uf_min_representative (merge_list : list (N * N)) (label : N) : N :=
  fold_left N.min (component merge_list label) label.

(** *** Relabelling *)

(** [relabel]: add the offset, put the background back to 0, and apply the
    master merge list to the labels of the chunk. *)
Definition relabel_mappings (master : list (N * N)) (labels : list N) : gmap N N :=
  let mapping_col := np_unique labels in
  let label_mappings : gmap N N := list_to_map (map (fun l => (l, l)) mapping_col) in
  fold_left (fun label_mappings mapping =>
               match label_mappings !! fst mapping with
               | Some _ => <[fst mapping := snd mapping]> label_mappings
               | None => label_mappings
               end)
            master label_mappings.

Definition relabel (offset : N) (master : list (N * N)) (labels : label_array) : label_array :=
  let labels :=
    mkLabels (lshape labels)
             (fun p => let l := (ldata labels p + offset)%N in
                       (* make sure 0 is 0 *)
                       if (l =? offset)%N then 0%N else l) in
  let label_mappings := relabel_mappings master (array_values labels) in
  (* the key is there for every voxel of the array: the dictionary was
     built from the values of the array *)
  mkLabels (lshape labels)
           (fun p => default (ldata labels p) (label_mappings !! ldata labels p)).

(** *** The driver *)

(** [offsets[subvolume.roi_id] = offset; offset += subvolume.max_id] *)
Definition compute_offsets (subvolumes : list Subvolume) : gmap N N :=
  fst (fold_left (fun st subvolume =>
                    (<[roi_id subvolume := snd st]> (fst st), (snd st + max_id subvolume)%N))
                 subvolumes (∅, 0%N)).

Section Stitch.
Variable touches : Z -> Z -> Z -> Z -> bool.

(** The candidate edges of all boundary pairs, collected on the driver. *)
Definition stitch_merge_list (stitch_mode : Z) (subvolume_offsets : gmap N N)
    (grouped_boundaries : list (list (Subvolume * label_array))) : res (list (N * N)) :=
  subvolume_mappings <-- rmapM (stitcher touches stitch_mode subvolume_offsets)
                               grouped_boundaries ;;
  Ok (concat (map snd subvolume_mappings)).

(** [Segmentor.stitch], from the grouped boundaries on: [grouped_boundaries]
    are the pairs of boundary slabs that [extract_boundaries] and
    [groupByKey] hand to [stitcher]. *)
Definition stitch (stitch_mode : Z) (label_chunks : list (Subvolume * label_array))
    (grouped_boundaries : list (list (Subvolume * label_array)))
  : res (list (Subvolume * label_array)) :=
  let subvolume_offsets := compute_offsets (map fst label_chunks) in
  merge_list <-- stitch_merge_list stitch_mode subvolume_offsets grouped_boundaries ;;
  let master := master_merge_list merge_list in
  rmapM (fun chunk =>
           match subvolume_offsets !! roi_id (fst chunk) with
           | Some offset => Ok (fst chunk, relabel offset master (snd chunk))
           | None => Raise (KeyError "subvolume_offsets")
           end)
        label_chunks.
End Stitch.

(** No vote involves the background label 0. *)
Definition votes_nonzero (body2body : dict (dict Z)) : Prop :=
  Forall (fun kv => fst kv <> 0%N /\ Forall (fun kv' => fst kv' <> 0%N) (snd kv)) body2body.

(** In conservative mode a label [body] accepts [partner]: [body] lies on
    the interface plane, [partner] is its best overlap, above [hard_lb], and
    holds at least 0.90 of the votes of [body]. *)
Definition conservative_match (eligible_bodies : gset N) (body2body : dict (dict Z))
    (body partner : N) : Prop :=
  body ∈ eligible_bodies /\
  exists bodydict max_val total_val,
    In (body, bodydict) body2body /\
    best_overlap bodydict = (Some partner, max_val, total_val) /\
    9 * total_val <= 10 * max_val.

(** [bodysave in mutual_list and body2 in mutual_list[bodysave]] *)
Definition mutual_has (mutual : gmap N (gmap N Z)) (bodysave body2 : N) : Prop :=
  exists partners, mutual !! bodysave = Some partners /\ is_Some (partners !! body2).

(** Both labels of every edge of the list are not the background label 0. *)
Definition edges_nonzero (merges : list (N * N)) : Prop :=
  forall e, In e merges -> fst e <> 0%N /\ snd e <> 0%N.

(** *** A boundary pair used in the examples

    Two subvolumes stacked along z.  On the first side the label 1 fills 60
    voxels and the label 2 fills 600; on the second side the label 5 fills
    all 660. *)
Definition face_touches (p1 p2 p1_2 p2_2 : Z) : bool := (p1 =? p2_2) || (p2 =? p1_2).

Definition lower_subvolume : Subvolume := mkSubvolume 0 (mkRoi 0 0 0 660 1 10) 2.
Definition upper_subvolume : Subvolume := mkSubvolume 1 (mkRoi 0 0 10 660 1 20) 5.

Definition lower_boundary : label_array :=
  mkLabels (mk3 1 1 660) (fun p => if c2 p <? 60 then 1%N else 2%N).
Definition upper_boundary : label_array :=
  mkLabels (mk3 1 1 660) (fun _ => 5%N).

(** ** Further definitions used by the properties of the second part *)

(** A box that holds at least one point. *)
Definition box_nonempty (b : Box) : Prop :=
  c0 (fst b) < c0 (snd b) /\ c1 (fst b) < c1 (snd b) /\ c2 (fst b) < c2 (snd b).

(** Two boxes share a point. *)
Definition boxes_intersect (a b : Box) : Prop := exists p, in_box p a /\ in_box p b.

(** The physical box rounded out to the padding grid: [padded_box] of
    [pad_brick_data_from_volume_source]. *)
Definition padded_box_of (physical : Box) (padding_grid : Grid) : Box :=
  let bs := block_shape padding_grid in
  let off := box_shift_sub physical (offset padding_grid) in
  box_shift_add
    (v3map2 Z.mul (v3map2 Z.div (fst off) bs) bs,
     v3map2 Z.mul (v3map2 Z.div (v3map2 Z.sub (v3add (snd off) bs) (mk3 1 1 1)) bs) bs)
    (offset padding_grid).

(** Every component lies between [- m] and [m]. *)
Definition v3within (m : Z) (v : Vec3) : Prop :=
  - m <= c0 v <= m /\ - m <= c1 v <= m /\ - m <= c2 v <= m.

(** The range of coordinates, block shapes and offsets on which no [int64]
    operation of the code overflows. *)
Definition coord_bound : Z := 2 ^ 60.

Definition box_small (b : Box) : Prop :=
  v3within coord_bound (fst b) /\ v3within coord_bound (snd b).

Definition grid_small (g : Grid) : Prop :=
  v3within coord_bound (block_shape g) /\ v3within coord_bound (offset g).

(** Every component of [v] is a multiple of that of [d]. *)
Definition v3divides (d v : Vec3) : Prop :=
  (c0 d | c0 v) /\ (c1 d | c1 v) /\ (c2 d | c2 v).

(** Both corners of the box lie on the grid. *)
Definition aligned_to_grid (box : Box) (grid : Grid) : Prop :=
  v3divides (block_shape grid) (v3sub (fst box) (offset grid)) /\
  v3divides (block_shape grid) (v3sub (snd box) (offset grid)).


(** [intersects] of [extract_boundaries]: the overlap of the ranges
    [pt1, pt2) and [pt1_2, pt2_2), in the coordinates of the first range and
    in those of the second. *)
Definition intersects (pt1 pt2 pt1_2 pt2_2 : Z) : res (Z * Z * Z * Z) :=
  if pt2 <? pt1 then Raise (Exception "point 1 greater than point 2")
  else if pt2_2 <? pt1_2 then Raise (Exception "point 1 greater than point 2")
  else
    let val1 := Z.max pt1 pt1_2 in
    let val2 := Z.min pt2 pt2_2 in
    let size := val2 - val1 in
    let npt1 := val1 - pt1 in
    let npt1_2 := val1 - pt1_2 in
    Ok (npt1, npt1 + size, npt1_2, npt1_2 + size).

(** * Properties *)

(** ** The error monad *)

Lemma rbind_Ok_inv {A B} (m : res A) (k : A -> res B) (b : B) :
  rbind m k = Ok b -> exists a, m = Ok a /\ k a = Ok b.
Proof. destruct m as [a|e]; simpl; intros H; [eauto | discriminate]. Qed.

Lemma assert_Ok_inv (c : bool) (msg : string) (u : unit) :
  assert_ c msg = Ok u -> c = true.
Proof. destruct c; simpl; [reflexivity | discriminate]. Qed.

(** ** [int64] arithmetic that does not overflow *)

Lemma wrap64_small (z : Z) : - 2 ^ 63 <= z < 2 ^ 63 -> wrap64 z = z.
Proof. intros H. unfold wrap64. rewrite Z.mod_small by lia. lia. Qed.


Lemma np_add_small (a b : Z) : - 2 ^ 63 <= a + b < 2 ^ 63 -> np_add a b = a + b.
Proof. apply wrap64_small. Qed.

Lemma np_sub_small (a b : Z) : - 2 ^ 63 <= a - b < 2 ^ 63 -> np_sub a b = a - b.
Proof. apply wrap64_small. Qed.

Lemma np_mul_small (a b : Z) : - 2 ^ 63 <= a * b < 2 ^ 63 -> np_mul a b = a * b.
Proof. apply wrap64_small. Qed.

Lemma coord_bound_eq : coord_bound = 1152921504606846976.
Proof. reflexivity. Qed.

Lemma v3add64_small (m1 m2 : Z) (a b : Vec3) :
  v3within m1 a -> v3within m2 b -> m1 + m2 < 2 ^ 63 -> v3add64 a b = v3add a b.
Proof.
  intros (A0 & A1 & A2) (B0 & B1 & B2) Hm. unfold v3add64, v3add, v3map2.
  rewrite !np_add_small by lia. reflexivity.
Qed.

Lemma v3sub64_small (m1 m2 : Z) (a b : Vec3) :
  v3within m1 a -> v3within m2 b -> m1 + m2 < 2 ^ 63 -> v3sub64 a b = v3sub a b.
Proof.
  intros (A0 & A1 & A2) (B0 & B1 & B2) Hm. unfold v3sub64, v3sub, v3map2.
  rewrite !np_sub_small by lia. reflexivity.
Qed.

Lemma v3within_mono (m m' : Z) (v : Vec3) : m <= m' -> v3within m v -> v3within m' v.
Proof. unfold v3within. lia. Qed.

Lemma v3within_sub (m1 m2 : Z) (a b : Vec3) :
  v3within m1 a -> v3within m2 b -> v3within (m1 + m2) (v3sub a b).
Proof. unfold v3within, v3sub, v3map2; simpl. lia. Qed.

Lemma v3within_add (m1 m2 : Z) (a b : Vec3) :
  v3within m1 a -> v3within m2 b -> v3within (m1 + m2) (v3add a b).
Proof. unfold v3within, v3add, v3map2; simpl. lia. Qed.

(** A vector that lies between two vectors within [m] lies within [m]. *)
Lemma v3within_between (m : Z) (lo hi v : Vec3) :
  v3within m lo -> v3within m hi -> v3le lo v -> v3le v hi -> v3within m v.
Proof. unfold v3within, v3le. lia. Qed.

Lemma box_shift_sub64_small (m1 m2 : Z) (box : Box) (v : Vec3) :
  v3within m1 (fst box) -> v3within m1 (snd box) -> v3within m2 v -> m1 + m2 < 2 ^ 63 ->
  box_shift_sub64 box v = box_shift_sub box v.
Proof.
  intros H1 H2 Hv Hm. unfold box_shift_sub64, box_shift_sub.
  now rewrite !(v3sub64_small m1 m2).
Qed.

Lemma box_shift_add64_small (m1 m2 : Z) (box : Box) (v : Vec3) :
  v3within m1 (fst box) -> v3within m1 (snd box) -> v3within m2 v -> m1 + m2 < 2 ^ 63 ->
  box_shift_add64 box v = box_shift_add box v.
Proof.
  intros H1 H2 Hv Hm. unfold box_shift_add64, box_shift_add.
  now rewrite !(v3add64_small m1 m2).
Qed.


(** ** One axis of a grid *)

Section OneAxis.
Variable b : Z.
Hypothesis b_pos : 0 < b.

Lemma div_within (m a : Z) : - m <= a <= m -> - m <= a / b <= m.
Proof.
  intros H. pose proof (Z.mul_div_le a b b_pos). pose proof (Z.mul_succ_div_gt a b b_pos).
  nia.
Qed.

Lemma np_floordiv_pos (a : Z) : - 2 ^ 63 < a < 2 ^ 63 -> np_floordiv a b = a / b.
Proof.
  intros H. unfold np_floordiv. destruct (Z.eqb_spec b 0); [lia|].
  apply wrap64_small. pose proof (div_within (2 ^ 63 - 1) a). lia.
Qed.

(** Rounding down and up to a multiple of [b], as the code computes it. *)
Lemma round_down64 (x : Z) :
  - 2 ^ 61 <= x <= 2 ^ 61 -> b <= 2 ^ 61 ->
  np_mul (np_floordiv x b) b = x / b * b.
Proof.
  intros Hx Hb. rewrite np_floordiv_pos by lia. apply np_mul_small.
  pose proof (Z.mul_div_le x b b_pos). pose proof (Z.mul_succ_div_gt x b b_pos). lia.
Qed.

Lemma round_up64 (e : Z) :
  - 2 ^ 61 <= e <= 2 ^ 61 -> b <= 2 ^ 61 ->
  np_mul (np_floordiv (np_sub (np_add e b) 1) b) b = (e + b - 1) / b * b.
Proof.
  intros He Hb. rewrite np_add_small by lia. rewrite np_sub_small by lia.
  rewrite np_floordiv_pos by lia. apply np_mul_small.
  pose proof (Z.mul_div_le (e + b - 1) b b_pos).
  pose proof (Z.mul_succ_div_gt (e + b - 1) b b_pos). lia.
Qed.

(** The blocks between the rounded ends stay between them. *)
Lemma block_start_bounds (x e k : Z) :
  x / b <= k < (e + b - 1) / b -> x - b < k * b /\ k * b + b <= e + b - 1.
Proof.
  intros [Hlo Hhi].
  pose proof (Z.mul_div_le (e + b - 1) b b_pos).
  pose proof (Z.mul_succ_div_gt x b b_pos). nia.
Qed.

Lemma np_mod_pos (a : Z) : np_mod a b = a mod b.
Proof. unfold np_mod. destruct (Z.eqb_spec b 0); [lia | reflexivity]. Qed.

Lemma py_range_len_aligned (q1 q2 : Z) :
  py_range_len (q1 * b) (q2 * b) b = Z.max 0 (q2 - q1).
Proof.
  unfold py_range_len. destruct (Z.ltb_spec 0 b); [|lia].
  replace (q2 * b - q1 * b + b - 1) with ((b - 1) + (q2 - q1) * b) by ring.
  rewrite Z.div_add by lia. rewrite Z.div_small by lia. reflexivity.
Qed.

(** The block starts along one axis: the multiples [k * b] with
    [q1 <= k < q2]. *)
Lemma py_range_aligned (q1 q2 : Z) :
  exists l, py_range (q1 * b) (q2 * b) b = Ok l /\
    List.NoDup l /\
    (forall x, In x l <-> exists k, x = k * b /\ q1 <= k < q2).
Proof.
  unfold py_range. destruct (Z.eqb_spec b 0); [lia|].
  rewrite py_range_len_aligned.
  eexists; split; [reflexivity|]. split.
  - apply Finite.Injective_map_NoDup; [|apply seq_NoDup].
    intros i j Hij. nia.
  - intros x. rewrite in_map_iff. split.
    + intros (k & <- & Hk). apply in_seq in Hk.
      exists (q1 + Z.of_nat k). split; [ring | lia].
    + intros (k & -> & Hk). exists (Z.to_nat (k - q1)). split.
      * rewrite Z2Nat.id by lia. ring.
      * apply in_seq. lia.
Qed.

(** The block that holds the coordinate [x]. *)
Lemma block_of_point (x k : Z) : k * b <= x < k * b + b <-> k = x / b.
Proof.
  split.
  - intros H. apply Z.div_unique with (r := x - k * b); lia.
  - intros ->. pose proof (Z.mul_div_le x b b_pos).
    pose proof (Z.mul_succ_div_gt x b b_pos). lia.
Qed.

Lemma block_index_in_range (s e x : Z) :
  s <= x < e -> s / b <= x / b < (e + b - 1) / b.
Proof.
  intros [Hs He]. split.
  - apply Z.div_le_mono; lia.
  - assert (x / b <= (e - 1) / b) by (apply Z.div_le_mono; lia).
    replace (e + b - 1) with ((e - 1) + 1 * b) by ring.
    rewrite Z.div_add by lia. lia.
Qed.
End OneAxis.

(** ** Products of ranges *)

Lemma NoDup_flat_map_disjoint {A B} (f : A -> list B) (l : list A) :
  List.NoDup l ->
  (forall a, In a l -> List.NoDup (f a)) ->
  (forall a a' x, In a l -> In a' l -> In x (f a) -> In x (f a') -> a = a') ->
  List.NoDup (flat_map f l).
Proof.
  induction 1 as [|a l Hnotin Hnd IH]; intros Hf Hinj; simpl.
  - constructor.
  - apply List.NoDup_app.
    + apply Hf. now left.
    + apply IH.
      * intros a' Ha'. apply Hf. now right.
      * intros a1 a2 x H1 H2. apply Hinj; now right.
    + intros x Hx Hx'. apply in_flat_map in Hx' as (a' & Ha' & Hxa').
      assert (a = a') by (apply (Hinj a a' x); simpl; auto).
      subst a'. contradiction.
Qed.

Lemma in_product3 (zs ys xs : list Z) (v : Vec3) :
  In v (flat_map (fun z => flat_map (fun y => map (fun x => mk3 z y x) xs) ys) zs) <->
  In (c0 v) zs /\ In (c1 v) ys /\ In (c2 v) xs.
Proof.
  rewrite in_flat_map. split.
  - intros (z & Hz & H). apply in_flat_map in H as (y & Hy & H).
    apply in_map_iff in H as (x & <- & Hx). simpl. auto.
  - intros (Hz & Hy & Hx). exists (c0 v). split; [assumption|].
    apply in_flat_map. exists (c1 v). split; [assumption|].
    apply in_map_iff. exists (c2 v). split; [now destruct v | assumption].
Qed.

Lemma NoDup_product3 (zs ys xs : list Z) :
  List.NoDup zs -> List.NoDup ys -> List.NoDup xs ->
  List.NoDup (flat_map (fun z => flat_map (fun y => map (fun x => mk3 z y x) xs) ys) zs).
Proof.
  intros Hz Hy Hx. apply NoDup_flat_map_disjoint; [assumption| |].
  - intros z _. apply NoDup_flat_map_disjoint; [assumption| |].
    + intros y _. apply Finite.Injective_map_NoDup; [|assumption].
      intros x x' E. now inversion E.
    + intros y y' v _ _ H1 H2.
      apply in_map_iff in H1 as (x1 & <- & _).
      apply in_map_iff in H2 as (x2 & E & _). now inversion E.
  - intros z z' v _ _ H1 H2.
    apply in_flat_map in H1 as (y1 & _ & H1). apply in_map_iff in H1 as (x1 & <- & _).
    apply in_flat_map in H2 as (y2 & _ & H2). apply in_map_iff in H2 as (x2 & E & _).
    now inversion E.
Qed.

(** ** The blocks of a grid *)

Section GridBlocks.
Variable grid : Grid.
Hypothesis grid_pos : grid_positive grid.

Lemma grid_block_inj (k k' : Vec3) : grid_block grid k = grid_block grid k' -> k = k'.
Proof.
  destruct grid_pos as (H0 & H1 & H2).
  destruct k as [k0 k1 k2], k' as [k0' k1' k2'].
  unfold grid_block, v3add, v3map2; simpl. intros E. inversion E.
  f_equal; nia.
Qed.

(** A point lies in exactly the block given by [grid_index_of]. *)
Lemma in_grid_block (p k : Vec3) :
  in_box p (grid_block grid k) <-> k = grid_index_of grid p.
Proof.
  destruct grid_pos as (H0 & H1 & H2).
  destruct grid as [[b0 b1 b2] [o0 o1 o2]], p as [p0 p1 p2], k as [k0 k1 k2].
  unfold in_box, grid_block, grid_index_of, v3add, v3sub, v3map2 in *; simpl in *.
  pose proof (block_of_point b0 H0 (p0 - o0) k0).
  pose proof (block_of_point b1 H1 (p1 - o1) k1).
  pose proof (block_of_point b2 H2 (p2 - o2) k2).
  split.
  - intros (A0 & A1 & A2). f_equal; [apply H | apply H3 | apply H4]; lia.
  - intros E. inversion E as [[E0 E1 E2]].
    apply H in E0. apply H3 in E1. apply H4 in E2. lia.
Qed.

Lemma grid_blocks_disjoint (k k' : Vec3) :
  k <> k' -> boxes_disjoint (grid_block grid k) (grid_block grid k').
Proof.
  intros Hne p [H1 H2]. apply in_grid_block in H1, H2. congruence.
Qed.

Lemma index_of_point_in_range (bb : Box) (p : Vec3) :
  in_box p bb -> index_in_range bb grid (grid_index_of grid p).
Proof.
  destruct grid_pos as (H0 & H1 & H2).
  destruct grid as [[b0 b1 b2] [o0 o1 o2]], p as [p0 p1 p2], bb as [[s0 s1 s2] [e0 e1 e2]].
  unfold in_box, index_in_range, grid_index_of, v3add, v3sub, v3map2 in *; simpl in *.
  intros (A0 & A1 & A2).
  pose proof (block_index_in_range b0 H0 (s0 - o0) (e0 - o0) (p0 - o0)).
  pose proof (block_index_in_range b1 H1 (s1 - o1) (e1 - o1) (p1 - o1)).
  pose proof (block_index_in_range b2 H2 (s2 - o2) (e2 - o2) (p2 - o2)).
  repeat split; lia.
Qed.
End GridBlocks.

(** ** [boxes_from_grid] enumerates the blocks that meet the bounding box *)

Lemma boxes_from_grid_no_offset_spec (bb : Box) (bs : Vec3) :
  grid_positive (mkGrid bs v3zero) ->
  v3within (2 ^ 61) bs -> v3within (2 ^ 61) (fst bb) -> v3within (2 ^ 61) (snd bb) ->
  exists l, _boxes_from_grid_no_offset bb bs = Ok l /\
    List.NoDup l /\
    (forall box, In box l <->
       exists k, box = grid_block (mkGrid bs v3zero) k /\
                 index_in_range bb (mkGrid bs v3zero) k).
Proof.
  intros (H0 & H1 & H2) (B0 & B1 & B2) (S0 & S1 & S2) (E0 & E1 & E2).
  destruct bs as [b0 b1 b2], bb as [[s0 s1 s2] [e0 e1 e2]].
  cbn [block_shape offset fst snd c0 c1 c2] in *.
  unfold _boxes_from_grid_no_offset, ndrange, v3mul64, v3sub64, v3add64, v3map2.
  cbn [fst snd c0 c1 c2].
  rewrite (round_up64 b0 H0 e0), (round_up64 b1 H1 e1), (round_up64 b2 H2 e2) by lia.
  rewrite (round_down64 b0 H0 s0), (round_down64 b1 H1 s1), (round_down64 b2 H2 s2) by lia.
  destruct (py_range_aligned b0 H0 (s0 / b0) ((e0 + b0 - 1) / b0)) as (zs & -> & Nz & Iz).
  destruct (py_range_aligned b1 H1 (s1 / b1) ((e1 + b1 - 1) / b1)) as (ys & -> & Ny & Iy).
  destruct (py_range_aligned b2 H2 (s2 / b2) ((e2 + b2 - 1) / b2)) as (xs & -> & Nx & Ix).
  cbn [rbind]. eexists; split; [reflexivity|]. split.
  - apply Finite.Injective_map_NoDup; [|now apply NoDup_product3].
    intros v v' E. now inversion E.
  - intros box. rewrite in_map_iff.
    unfold index_in_range, grid_block, v3add, v3sub, v3zero, v3map2.
    cbn [block_shape offset fst snd c0 c1 c2].
    rewrite ?Z.sub_0_r, ?Z.add_0_l. split.
    + intros ([z y x] & <- & Hin). apply in_product3 in Hin as (Hz & Hy & Hx).
      cbn [c0 c1 c2] in *. apply Iz in Hz as (k0 & -> & R0). apply Iy in Hy as (k1 & -> & R1).
      apply Ix in Hx as (k2 & -> & R2). exists (mk3 k0 k1 k2). cbn [c0 c1 c2].
      pose proof (block_start_bounds b0 H0 s0 e0 k0 R0).
      pose proof (block_start_bounds b1 H1 s1 e1 k1 R1).
      pose proof (block_start_bounds b2 H2 s2 e2 k2 R2).
      rewrite !np_add_small by lia. auto.
    + intros ([k0 k1 k2] & -> & R0 & R1 & R2). cbn [c0 c1 c2] in *.
      exists (mk3 (k0 * b0) (k1 * b1) (k2 * b2)). split.
      * cbn [c0 c1 c2].
        pose proof (block_start_bounds b0 H0 s0 e0 k0 R0).
        pose proof (block_start_bounds b1 H1 s1 e1 k1 R1).
        pose proof (block_start_bounds b2 H2 s2 e2 k2 R2).
        rewrite !np_add_small by lia. reflexivity.
      * apply in_product3; cbn [c0 c1 c2]. rewrite Iz, Iy, Ix.
        repeat split; eexists; (split; [reflexivity|]); assumption.
Qed.

Lemma v3eqb_eq (a b : Vec3) : v3eqb a b = true <-> a = b.
Proof.
  destruct a, b. unfold v3eqb, v3all2; simpl.
  rewrite !andb_true_iff, !Z.eqb_eq. split.
  - intros [[-> ->] ->]. reflexivity.
  - intros E. now inversion E.
Qed.

(** The blocks that [boxes_from_grid] runs over lie near the bounding box. *)
Lemma grid_block_near (bb : Box) (grid : Grid) (k : Vec3) :
  grid_positive grid -> index_in_range bb grid k ->
  v3le (v3sub (fst bb) (block_shape grid)) (fst (grid_block grid k)) /\
  v3le (snd (grid_block grid k)) (v3add (snd bb) (block_shape grid)).
Proof.
  intros (P0 & P1 & P2) (R0 & R1 & R2).
  destruct grid as [[b0 b1 b2] [o0 o1 o2]], k as [k0 k1 k2], bb as [[s0 s1 s2] [e0 e1 e2]].
  cbn [block_shape offset fst snd c0 c1 c2 v3sub v3add v3map2] in *.
  pose proof (block_start_bounds b0 P0 (s0 - o0) (e0 - o0) k0 R0).
  pose proof (block_start_bounds b1 P1 (s1 - o1) (e1 - o1) k1 R1).
  pose proof (block_start_bounds b2 P2 (s2 - o2) (e2 - o2) k2 R2).
  unfold v3le, grid_block, v3add, v3sub, v3map2; cbn [block_shape offset fst snd c0 c1 c2].
  lia.
Qed.

Lemma boxes_from_grid_spec (bb : Box) (grid : Grid) :
  grid_positive grid -> grid_small grid -> box_small bb ->
  exists l, boxes_from_grid bb grid = Ok l /\
    List.NoDup l /\
    (forall box, In box l <->
       exists k, box = grid_block grid k /\ index_in_range bb grid k).
Proof.
  intros Hpos [Gb Go] [Bs Be]. rewrite coord_bound_eq in *. unfold boxes_from_grid.
  destruct (v3eqb (offset grid) v3zero) eqn:Hoff.
  - apply v3eqb_eq in Hoff. destruct grid as [bs o]. simpl in *. subst o.
    apply boxes_from_grid_no_offset_spec; [assumption|..];
      (eapply v3within_mono; [|eassumption]); lia.
  - rewrite (box_shift_sub64_small (2 ^ 60) (2 ^ 60)) by (assumption || lia).
    destruct (boxes_from_grid_no_offset_spec (box_shift_sub bb (offset grid))
                (block_shape grid) Hpos) as (l & -> & Nl & Il).
    { eapply v3within_mono; [|eassumption]. lia. }
    { apply (v3within_sub (2 ^ 60) (2 ^ 60)); assumption. }
    { apply (v3within_sub (2 ^ 60) (2 ^ 60)); assumption. }
    cbn [rbind].
    assert (Hmap : map (fun box => box_shift_add64 box (offset grid)) l
                   = map (fun box => box_shift_add box (offset grid)) l).
    { apply map_ext_in. intros box Hin. apply Il in Hin as (k & -> & Hk).
      destruct (grid_block_near _ (mkGrid (block_shape grid) v3zero) k Hpos Hk) as [Hlo Hhi].
      destruct Hpos as (P0 & P1 & P2).
      destruct grid as [[b0 b1 b2] [o0 o1 o2]], k as [k0 k1 k2], bb as [[s0 s1 s2] [e0 e1 e2]].
      unfold v3within, v3le, grid_block, box_shift_sub, v3add, v3sub, v3zero, v3map2 in *.
      cbn [block_shape offset fst snd c0 c1 c2] in *.
      apply (box_shift_add64_small (2 ^ 62) (2 ^ 60)); unfold v3within;
        cbn [fst snd c0 c1 c2]; lia. }
    rewrite Hmap. eexists; split; [reflexivity|]. split.
    + apply Finite.Injective_map_NoDup; [|assumption].
      intros [[a0 a1 a2] [a0' a1' a2']] [[d0 d1 d2] [d0' d1' d2']].
      unfold box_shift_add, v3add, v3map2; simpl. intros E. inversion E.
      repeat f_equal; lia.
    + intros box. rewrite in_map_iff. split.
      * intros (box0 & <- & Hin). apply Il in Hin as (k & -> & Hk).
        exists k. split.
        -- destruct grid as [[b0 b1 b2] [o0 o1 o2]], k as [k0 k1 k2].
           unfold box_shift_add, grid_block, v3add, v3map2; simpl.
           f_equal; f_equal; ring.
        -- destruct grid as [[b0 b1 b2] [o0 o1 o2]], k as [k0 k1 k2],
                    bb as [[s0 s1 s2] [e0 e1 e2]].
           unfold index_in_range, box_shift_sub, v3add, v3sub, v3map2 in *; simpl in *.
           rewrite !Z.sub_0_r in Hk. exact Hk.
      * intros (k & -> & Hk). exists (grid_block (mkGrid (block_shape grid) v3zero) k).
        split.
        -- destruct grid as [[b0 b1 b2] [o0 o1 o2]], k as [k0 k1 k2].
           unfold box_shift_add, grid_block, v3add, v3map2; simpl.
           f_equal; f_equal; ring.
        -- apply Il. exists k. split; [reflexivity|].
           destruct grid as [[b0 b1 b2] [o0 o1 o2]], k as [k0 k1 k2],
                    bb as [[s0 s1 s2] [e0 e1 e2]].
           unfold index_in_range, box_shift_sub, v3add, v3sub, v3map2 in *; simpl in *.
           rewrite !Z.sub_0_r. exact Hk.
Qed.

Lemma in_box_intersection (p : Vec3) (a b : Box) :
  in_box p (box_intersection a b) <-> in_box p a /\ in_box p b.
Proof.
  destruct a as [[a0 a1 a2] [a0' a1' a2']], b as [[d0 d1 d2] [d0' d1' d2']], p as [p0 p1 p2].
  unfold in_box, box_intersection, v3map2; simpl. lia.
Qed.


(** The clipped boxes and the blocks they come from. *)
Lemma clipped_boxes_from_grid_spec (bb : Box) (grid : Grid) :
  grid_positive grid -> grid_small grid -> box_small bb ->
  exists l, boxes_from_grid bb grid = Ok l /\
    clipped_boxes_from_grid bb grid = Ok (map (fun box => box_intersection box bb) l) /\
    List.NoDup l /\
    (forall box, In box l <->
       exists k, box = grid_block grid k /\ index_in_range bb grid k).
Proof.
  intros Hpos Hg Hb. destruct (boxes_from_grid_spec bb grid Hpos Hg Hb) as (l & E & Nl & Il).
  exists l. unfold clipped_boxes_from_grid. rewrite E. simpl. auto.
Qed.

(** C2, as stated, fails: the coordinates are [int64], and rounding the
    stop of the box up to the grid overflows near [2^63].  For the box
    [((0, 0, 2^63 - 3), (1, 1, 2^63 - 1))], which has start <= stop, and the
    grid of block shape [(1, 1, 2)] at the origin, [bounding_box[1] +
    block_shape - 1] wraps to [-2^63], the range of block starts is empty and
    no box is yielded, although the box holds the point [(0, 0, 2^63 - 3)]:
    the union of the yielded boxes is not the box. *)
Lemma clipped_boxes_from_grid_overflow :
  let B : Box := (mk3 0 0 (2 ^ 63 - 3), mk3 1 1 (2 ^ 63 - 1)) in
  let G := mkGrid (mk3 1 1 2) v3zero in
  v3le (fst B) (snd B) /\
  grid_positive G /\
  clipped_boxes_from_grid B G = Ok [] /\
  in_box (mk3 0 0 (2 ^ 63 - 3)) B.
Proof.
  cbv zeta. split; [|split; [|split]].
  - unfold v3le; simpl; lia.
  - unfold grid_positive; simpl; lia.
  - vm_compute. reflexivity.
  - unfold in_box; simpl; lia.
Qed.

(** C2, amended. Grid partitioning is a tiling, away from the ends of
    [int64]: for a grid with a positive block shape and a box, all of whose
    coordinates, block shape and offset are at most [2^60] in absolute value,
    [clipped_boxes_from_grid bb grid] returns a list of boxes whose union is
    exactly the bounding box (a point lies in [bb] iff it lies in one of the
    boxes) and which are pairwise disjoint (boxes at two different positions
    of the list share no point).  The statement needs no order between the
    start and the stop of [bb]: a box with stop below start holds no point
    and yields boxes that hold none. *)
Theorem clipped_boxes_from_grid_tiling (bb : Box) (grid : Grid) :
  grid_positive grid -> grid_small grid -> box_small bb ->
  exists boxes, clipped_boxes_from_grid bb grid = Ok boxes /\
    (forall p, in_box p bb <-> exists box, In box boxes /\ in_box p box) /\
    (forall i j bi bj, nth_error boxes i = Some bi -> nth_error boxes j = Some bj ->
                       i <> j -> boxes_disjoint bi bj).
Proof.
  intros Hpos Hg Hb.
  destruct (clipped_boxes_from_grid_spec bb grid Hpos Hg Hb) as (l & _ & E & Nl & Il).
  eexists; split; [exact E|]. split.
  - intros p. split.
    + intros Hp. exists (box_intersection (grid_block grid (grid_index_of grid p)) bb).
      split.
      * apply in_map_iff. eexists; split; [reflexivity|].
        apply Il. eexists; split; [reflexivity|].
        now apply index_of_point_in_range.
      * apply in_box_intersection. split; [|assumption].
        now apply in_grid_block.
    + intros (box & Hin & Hp). apply in_map_iff in Hin as (box0 & <- & _).
      now apply in_box_intersection in Hp.
  - intros i j bi bj Hi Hj Hne p [Hpi Hpj].
    rewrite nth_error_map in Hi, Hj.
    destruct (nth_error l i) as [boxi|] eqn:Ei; [|discriminate].
    destruct (nth_error l j) as [boxj|] eqn:Ej; [|discriminate].
    simpl in Hi, Hj. inversion Hi; subst bi. inversion Hj; subst bj.
    apply in_box_intersection in Hpi as [Hpi _], Hpj as [Hpj _].
    pose proof (nth_error_In _ _ Ei) as Ini. pose proof (nth_error_In _ _ Ej) as Inj.
    apply Il in Ini as (ki & -> & _). apply Il in Inj as (kj & -> & _).
    apply (in_grid_block grid Hpos) in Hpi, Hpj. subst ki kj.
    apply Hne. apply (proj1 (List.NoDup_nth_error l) Nl).
    + apply nth_error_Some. congruence.
    + congruence.
Qed.

Lemma clipped_boxes_from_grid_tiling_witness :
  exists boxes,
    clipped_boxes_from_grid (mk3 1 0 0, mk3 5 3 2) (mkGrid (mk3 2 2 2) (mk3 1 0 1)) = Ok boxes /\
    (forall p, in_box p (mk3 1 0 0, mk3 5 3 2) <-> exists box, In box boxes /\ in_box p box) /\
    (forall i j bi bj, nth_error boxes i = Some bi -> nth_error boxes j = Some bj ->
                       i <> j -> boxes_disjoint bi bj).
Proof.
  apply (clipped_boxes_from_grid_tiling (mk3 1 0 0, mk3 5 3 2) (mkGrid (mk3 2 2 2) (mk3 1 0 1))).
  - unfold grid_positive; simpl; lia.
  - unfold grid_small, v3within; rewrite coord_bound_eq; simpl; lia.
  - unfold box_small, v3within; rewrite coord_bound_eq; simpl; lia.
Defined.

Example clipped_boxes_from_grid_example :
  clipped_boxes_from_grid (mk3 0 0 1, mk3 1 3 4) (mkGrid (mk3 1 2 2) (mk3 0 0 0))
  = Ok [ (mk3 0 0 1, mk3 1 2 2); (mk3 0 0 2, mk3 1 2 4);
         (mk3 0 2 1, mk3 1 3 2); (mk3 0 2 2, mk3 1 3 4) ].
Proof. vm_compute. reflexivity. Qed.

(** ** Bricks *)

Lemma v3leb_le (a b : Vec3) : v3leb a b = true <-> v3le a b.
Proof.
  destruct a, b. unfold v3leb, v3all2, v3le; simpl.
  rewrite !andb_true_iff, !Z.leb_le. tauto.
Qed.

Lemma Brick_init_Ok_inv (l p : Box) (v : ndarray) (b : Brick) :
  Brick_init l p v = Ok b -> b = mkBrick l p v /\ brick_invariant b.
Proof.
  unfold Brick_init. intros H.
  apply rbind_Ok_inv in H as (_ & H1%assert_Ok_inv & H).
  apply rbind_Ok_inv in H as (_ & H2%assert_Ok_inv & H).
  apply rbind_Ok_inv in H as (_ & H3%assert_Ok_inv & H).
  inversion H; subst b. split; [reflexivity|].
  unfold brick_invariant; simpl.
  apply v3eqb_eq in H1. apply v3leb_le in H2, H3. auto.
Qed.

Lemma Brick_init_Ok (l p : Box) (v : ndarray) :
  brick_invariant (mkBrick l p v) -> Brick_init l p v = Ok (mkBrick l p v).
Proof.
  intros (Hs & Hlo & Hhi). simpl in *. unfold Brick_init.
  unfold box_extent in Hs. symmetry in Hs. apply v3eqb_eq in Hs.
  apply v3leb_le in Hlo, Hhi. rewrite Hs, Hlo, Hhi. reflexivity.
Qed.

Lemma rmapM_Ok_inv {A B} (f : A -> res B) (l : list A) (bs : list B) :
  rmapM f l = Ok bs -> Forall2 (fun a b => f a = Ok b) l bs.
Proof.
  revert bs. induction l as [|a l IH]; simpl; intros bs H.
  - inversion H. constructor.
  - apply rbind_Ok_inv in H as (b & Hb & H).
    apply rbind_Ok_inv in H as (bs' & Hbs & H). inversion H; subst bs.
    constructor; auto.
Qed.

Lemma rmapM_Ok {A B} (f : A -> res B) (l : list A) (bs : list B) :
  Forall2 (fun a b => f a = Ok b) l bs -> rmapM f l = Ok bs.
Proof.
  induction 1 as [|a b l bs Hab _ IH]; simpl; [reflexivity|].
  rewrite Hab. simpl. rewrite IH. reflexivity.
Qed.

Lemma rmapM_Ok_map {A B} (f : A -> res B) (g : A -> B) (l : list A) :
  (forall a, In a l -> f a = Ok (g a)) -> rmapM f l = Ok (map g l).
Proof.
  induction l as [|a l IH]; simpl; intros H; [reflexivity|].
  rewrite (H a) by auto. simpl. rewrite IH by auto. reflexivity.
Qed.



(** ** Casting to a dtype *)












(** ** The bounding hull of the fragments *)









(** ** Overwriting disjoint fragments *)

Section Overwrite.
Variable o : Vec3.



End Overwrite.

(** ** Assembly *)

Lemma brick_ok_start_le_stop (b : Brick) :
  brick_ok b -> v3le (fst (physical_box b)) (snd (physical_box b)).
Proof.
  intros (Hs & He & _). rewrite He in Hs.
  destruct (physical_box b) as [[] []].
  unfold shape_ok, box_extent, v3sub, v3map2, v3le in *; simpl in *. lia.
Qed.









Example assemble_brick_fragments_example :
  let L : Box := (mk3 0 0 0, mk3 1 1 4) in
  let f1 := mkBrick L (mk3 0 0 0, mk3 1 1 2) (mkArray (mk3 1 1 2) uint8 (fun p => 7 + c2 p)) in
  let f2 := mkBrick L (mk3 0 0 3, mk3 1 1 4) (mkArray (mk3 1 1 1) uint8 (fun _ => 9)) in
  match assemble_brick_fragments [f1; f2] with
  | Ok brick =>
      physical_box brick = (mk3 0 0 0, mk3 1 1 4) /\
      map (fun x => brick_voxel brick (mk3 0 0 x)) [0; 1; 2; 3] = [7; 8; 0; 9]
  | Raise _ => False
  end.
Proof. vm_compute. split; reflexivity. Qed.

(** ** Splitting *)

Lemma clipped_block_extent (b o s e k : Z) :
  0 < b -> s <= e ->
  (s - o) / b <= k < (e - o + b - 1) / b ->
  Z.max (o + k * b) s <= Z.min (o + k * b + b) e.
Proof.
  intros Hb Hse [Hlo Hhi].
  pose proof (Z.mul_div_le (e - o + b - 1) b Hb).
  pose proof (Z.mul_succ_div_gt (s - o) b Hb).
  assert (k * b + b <= b * ((e - o + b - 1) / b)) by nia.
  assert (b * ((s - o) / b) <= k * b) by nia.
  lia.
Qed.

Lemma split_fragment_ok (grid : Grid) (b : Brick) (k : Vec3) :
  grid_positive grid -> brick_ok b ->
  index_in_range (physical_box b) grid k ->
  brick_ok (split_fragment b (grid_block grid k)).
Proof.
  intros (P0 & P1 & P2) Hok (R0 & R1 & R2).
  pose proof (brick_ok_start_le_stop b Hok) as (S0 & S1 & S2).
  destruct grid as [[b0 b1 b2] [o0 o1 o2]], k as [k0 k1 k2].
  destruct (physical_box b) as [[s0 s1 s2] [e0 e1 e2]] eqn:Ephys.
  unfold split_fragment. rewrite Ephys.
  simpl in *.
  pose proof (clipped_block_extent b0 o0 s0 e0 k0 P0 S0 R0).
  pose proof (clipped_block_extent b1 o1 s1 e1 k1 P1 S1 R1).
  pose proof (clipped_block_extent b2 o2 s2 e2 k2 P2 S2 R2).
  unfold brick_ok, brick_invariant, shape_ok, v3le, box_extent, extract_subvol,
    box_intersection, box_shift_sub, grid_block, v3sub, v3add, v3map, v3map2; simpl.
  repeat split; try lia.
  f_equal; lia.
Qed.

(** The physical box of a fragment lies between the corners of the physical
    box of the brick. *)
Lemma split_fragment_between (grid : Grid) (b : Brick) (k : Vec3) :
  grid_positive grid -> brick_ok b ->
  index_in_range (physical_box b) grid k ->
  let frag := split_fragment b (grid_block grid k) in
  v3le (fst (physical_box b)) (fst (physical_box frag)) /\
  v3le (fst (physical_box frag)) (snd (physical_box b)) /\
  v3le (fst (physical_box b)) (snd (physical_box frag)) /\
  v3le (snd (physical_box frag)) (snd (physical_box b)).
Proof.
  intros (P0 & P1 & P2) Hok (R0 & R1 & R2).
  pose proof (brick_ok_start_le_stop b Hok) as (S0 & S1 & S2).
  destruct grid as [[b0 b1 b2] [o0 o1 o2]], k as [k0 k1 k2].
  destruct (physical_box b) as [[s0 s1 s2] [e0 e1 e2]] eqn:Ephys.
  unfold split_fragment. rewrite Ephys.
  simpl in *.
  pose proof (clipped_block_extent b0 o0 s0 e0 k0 P0 S0 R0).
  pose proof (clipped_block_extent b1 o1 s1 e1 k1 P1 S1 R1).
  pose proof (clipped_block_extent b2 o2 s2 e2 k2 P2 S2 R2).
  unfold v3le, box_intersection, grid_block, v3add, v3map2; simpl.
  lia.
Qed.

Lemma split_fragment_small (grid : Grid) (b : Brick) (k : Vec3) :
  grid_positive grid -> brick_ok b -> box_small (physical_box b) ->
  index_in_range (physical_box b) grid k ->
  box_small (physical_box (split_fragment b (grid_block grid k))).
Proof.
  intros Hpos Hok [Hs He] Hk.
  destruct (split_fragment_between grid b k Hpos Hok Hk) as (A & B & C & D).
  split; apply (v3within_between _ (fst (physical_box b)) (snd (physical_box b)));
    assumption.
Qed.

Lemma split_fragment_voxel (b : Brick) (box : Box) (p : Vec3) :
  brick_voxel (split_fragment b box) p = brick_voxel b p.
Proof.
  unfold brick_voxel, split_fragment, extract_subvol; simpl. f_equal.
  destruct p, box as [[] []], (physical_box b) as [[] []].
  unfold v3add, v3sub, v3map2; simpl. f_equal; ring.
Qed.


Lemma split_brick_spec (grid : Grid) (b : Brick) :
  grid_positive grid -> grid_small grid -> brick_ok b -> box_small (physical_box b) ->
  exists l,
    boxes_from_grid (physical_box b) grid = Ok l /\
    split_brick grid b = Ok (map (fun box => (box, split_fragment b box)) l) /\
    List.NoDup l /\
    (forall box, In box l <->
       exists k, box = grid_block grid k /\ index_in_range (physical_box b) grid k).
Proof.
  intros Hpos Hg Hok Hsmall.
  destruct (boxes_from_grid_spec (physical_box b) grid Hpos Hg Hsmall) as (l & E & Nl & Il).
  exists l. split; [exact E|]. split; [|auto].
  unfold split_brick. rewrite E. cbn [rbind].
  apply rmapM_Ok_map. intros box Hin.
  apply Il in Hin as (k & -> & Hk).
  pose proof (split_fragment_ok grid b k Hpos Hok Hk) as [_ Hinv].
  pose proof (split_fragment_small grid b k Hpos Hok Hsmall Hk) as [Fs Fe].
  unfold split_fragment in Hinv, Fs, Fe |- *. cbn [physical_box] in Fs, Fe.
  rewrite (box_shift_sub64_small coord_bound coord_bound);
    [|exact Fs|exact Fe|exact (proj1 Hsmall)|rewrite coord_bound_eq; lia].
  rewrite (Brick_init_Ok _ _ _ Hinv). reflexivity.
Qed.

(** ** Halo padding *)

Section PadAxis64.
Variables b o : Z.
Hypothesis b_pos : 0 < b.
Hypothesis b_small : b <= 2 ^ 60.
Hypothesis o_small : - 2 ^ 60 <= o <= 2 ^ 60.

Lemma padded_start64 (s : Z) :
  - 2 ^ 60 <= s <= 2 ^ 60 ->
  np_add (np_mul (np_floordiv (np_sub s o) b) b) o = (s - o) / b * b + o.
Proof.
  intros Hs. rewrite np_sub_small by lia. rewrite round_down64 by lia.
  apply np_add_small.
  pose proof (Z.mul_div_le (s - o) b b_pos). pose proof (Z.mul_succ_div_gt (s - o) b b_pos).
  lia.
Qed.

Lemma padded_stop64 (e : Z) :
  - 2 ^ 60 <= e <= 2 ^ 60 ->
  np_add (np_mul (np_floordiv (np_sub (np_add (np_sub e o) b) 1) b) b) o
  = (e - o + b - 1) / b * b + o.
Proof.
  intros He. rewrite (np_sub_small e o) by lia. rewrite round_up64 by lia.
  apply np_add_small.
  pose proof (Z.mul_div_le (e - o + b - 1) b b_pos).
  pose proof (Z.mul_succ_div_gt (e - o + b - 1) b b_pos). lia.
Qed.

(** The rounded coordinates stay within one block of the coordinate. *)
Lemma padded_start_near (s : Z) : s - b < (s - o) / b * b + o <= s.
Proof.
  pose proof (Z.mul_div_le (s - o) b b_pos). pose proof (Z.mul_succ_div_gt (s - o) b b_pos).
  lia.
Qed.

Lemma padded_stop_near (e : Z) : e <= (e - o + b - 1) / b * b + o < e + b.
Proof.
  pose proof (Z.mul_div_le (e - o + b - 1) b b_pos).
  pose proof (Z.mul_succ_div_gt (e - o + b - 1) b b_pos). lia.
Qed.

Lemma aligned64 (x : Z) :
  - 2 ^ 62 <= x <= 2 ^ 62 -> (np_mod (np_sub x o) b =? 0) = true <-> (b | x - o).
Proof.
  intros Hx. rewrite np_sub_small by lia. rewrite np_mod_pos by exact b_pos.
  rewrite Z.eqb_eq. apply Z.mod_divide. lia.
Qed.

Lemma multiple_aligned (q : Z) : (b | q * b + o - o).
Proof. exists q. ring. Qed.
End PadAxis64.

Lemma v3eqb_zero (v : Vec3) :
  v3eqb v v3zero = true <-> (c0 v =? 0) = true /\ (c1 v =? 0) = true /\ (c2 v =? 0) = true.
Proof.
  destruct v. unfold v3eqb, v3all2, v3zero; simpl. rewrite !andb_true_iff. tauto.
Qed.

(** The alignment test of the code decides alignment, away from the ends of
    [int64]. *)
Lemma box_aligned_spec (box : Box) (grid : Grid) :
  grid_positive grid -> grid_small grid ->
  v3within (2 ^ 62) (fst box) -> v3within (2 ^ 62) (snd box) ->
  box_aligned box grid = true <-> aligned_to_grid box grid.
Proof.
  intros (P0 & P1 & P2) [(B0 & B1 & B2) (O0 & O1 & O2)] (S0 & S1 & S2) (E0 & E1 & E2).
  rewrite coord_bound_eq in *.
  unfold box_aligned, aligned_to_grid, v3divides. rewrite andb_true_iff, !v3eqb_zero.
  destruct grid as [[b0 b1 b2] [o0 o1 o2]], box as [[s0 s1 s2] [e0 e1 e2]].
  unfold v3sub64, v3sub, v3map2. cbn [block_shape offset fst snd c0 c1 c2] in *.
  rewrite !aligned64 by lia. reflexivity.
Qed.

Lemma box_small_62 (box : Box) :
  box_small box -> v3within (2 ^ 62) (fst box) /\ v3within (2 ^ 62) (snd box).
Proof.
  intros [H1 H2]. rewrite coord_bound_eq in *.
  split; (eapply v3within_mono; [|eassumption]); lia.
Qed.

(** The padded box, as the code computes it, is the physical box rounded out
    to the grid. *)
Lemma padded_box64 (physical : Box) (grid : Grid) :
  grid_positive grid -> grid_small grid -> box_small physical ->
  let bs := block_shape grid in
  let off := box_shift_sub64 physical (offset grid) in
  box_shift_add64
    (v3mul64 (v3map2 np_floordiv (fst off) bs) bs,
     v3mul64 (v3map2 np_floordiv (v3sub64 (v3add64 (snd off) bs) (mk3 1 1 1)) bs) bs)
    (offset grid)
  = padded_box_of physical grid.
Proof.
  intros (P0 & P1 & P2) [(B0 & B1 & B2) (O0 & O1 & O2)] [(S0 & S1 & S2) (E0 & E1 & E2)].
  rewrite coord_bound_eq in *.
  destruct grid as [[b0 b1 b2] [o0 o1 o2]], physical as [[s0 s1 s2] [e0 e1 e2]].
  unfold padded_box_of, box_shift_add64, box_shift_sub64, box_shift_add, box_shift_sub,
    v3mul64, v3add64, v3sub64, v3add, v3sub, v3map2.
  cbn [block_shape offset fst snd c0 c1 c2] in *.
  rewrite !padded_start64, !padded_stop64 by lia. reflexivity.
Qed.

Lemma padded_box_near (physical : Box) (grid : Grid) :
  grid_positive grid ->
  let padded := padded_box_of physical grid in
  v3le (v3sub (fst physical) (block_shape grid)) (fst padded) /\
  v3le (fst padded) (fst physical) /\
  v3le (snd physical) (snd padded) /\
  v3le (snd padded) (v3add (snd physical) (block_shape grid)).
Proof.
  intros (P0 & P1 & P2).
  destruct grid as [[b0 b1 b2] [o0 o1 o2]], physical as [[s0 s1 s2] [e0 e1 e2]].
  unfold padded_box_of, box_shift_add, box_shift_sub, v3le, v3add, v3sub, v3map2.
  cbn [block_shape offset fst snd c0 c1 c2] in *.
  pose proof (padded_start_near b0 o0 P0 s0). pose proof (padded_start_near b1 o1 P1 s1).
  pose proof (padded_start_near b2 o2 P2 s2). pose proof (padded_stop_near b0 o0 P0 e0).
  pose proof (padded_stop_near b1 o1 P1 e1). pose proof (padded_stop_near b2 o2 P2 e2).
  lia.
Qed.

Lemma padded_box_within (physical : Box) (grid : Grid) :
  grid_positive grid -> grid_small grid -> box_small physical ->
  v3within (2 ^ 61) (fst (padded_box_of physical grid)) /\
  v3within (2 ^ 61) (snd (padded_box_of physical grid)).
Proof.
  intros Hpos [(B0 & B1 & B2) _] [(S0 & S1 & S2) (E0 & E1 & E2)].
  destruct (padded_box_near physical grid Hpos) as (A & B & C & D).
  rewrite coord_bound_eq in *.
  destruct (padded_box_of physical grid) as [[] []], physical as [[] []],
           (block_shape grid) as [].
  unfold v3within, v3le, v3add, v3sub, v3map2 in *. cbn [fst snd c0 c1 c2] in *. lia.
Qed.

Lemma padded_box_on_grid (physical : Box) (grid : Grid) :
  aligned_to_grid (padded_box_of physical grid) grid.
Proof.
  destruct grid as [[b0 b1 b2] [o0 o1 o2]], physical as [[s0 s1 s2] [e0 e1 e2]].
  unfold aligned_to_grid, v3divides, padded_box_of, box_shift_add, box_shift_sub,
    v3add, v3sub, v3map2.
  cbn [block_shape offset fst snd c0 c1 c2].
  repeat split; apply multiple_aligned.
Qed.

Lemma padded_box_aligned (physical : Box) (grid : Grid) :
  grid_positive grid -> grid_small grid -> box_small physical ->
  box_aligned (padded_box_of physical grid) grid = true.
Proof.
  intros Hpos Hg Hb. destruct (padded_box_within physical grid Hpos Hg Hb) as [H1 H2].
  apply box_aligned_spec; try assumption.
  - eapply v3within_mono; [|exact H1]. lia.
  - eapply v3within_mono; [|exact H2]. lia.
  - apply padded_box_on_grid.
Qed.

Lemma pad_fast_path (grid : Grid) (f : Box -> ndarray) (b : Brick) :
  box_aligned (logical_box b) grid = true ->
  box_aligned (physical_box b) grid = true ->
  pad_brick_data_from_volume_source grid f b = Ok b.
Proof.
  intros Hl Hp. unfold pad_brick_data_from_volume_source. rewrite Hl, Hp. reflexivity.
Qed.

Lemma pad_result_aligned (grid : Grid) (f : Box -> ndarray) (b b' : Brick) :
  grid_positive grid -> grid_small grid -> box_small (physical_box b) ->
  pad_brick_data_from_volume_source grid f b = Ok b' ->
  box_aligned (logical_box b') grid = true /\ box_aligned (physical_box b') grid = true.
Proof.
  intros Hpos Hg Hsmall. unfold pad_brick_data_from_volume_source. intros H.
  apply rbind_Ok_inv in H as (_ & Hl%assert_Ok_inv & H).
  destruct (box_aligned (physical_box b) grid) eqn:Hp.
  - inversion H; subst b'. auto.
  - rewrite (padded_box64 (physical_box b) grid Hpos Hg Hsmall) in H.
    apply rbind_Ok_inv in H as (_ & _ & H).
    apply rbind_Ok_inv in H as (_ & _ & H).
    apply rbind_Ok_inv in H as (zeros & _ & H).
    apply rbind_Ok_inv in H as (_ & _ & H).
    apply Brick_init_Ok_inv in H as [-> _]. cbn [logical_box physical_box].
    split; [exact Hl | now apply padded_box_aligned].
Qed.

Lemma pad_ref_unfold (grid : Grid) (f : Box -> ndarray) (brick : nat) (heap : list Brick)
    (b : Brick) :
  heap !! brick = Some b ->
  box_aligned (logical_box b) grid = true ->
  pad_brick_data_from_volume_source_ref grid f brick heap =
  if box_aligned (physical_box b) grid then Ok (brick, heap)
  else padded <-- pad_brick_data_from_volume_source grid f b ;;
       Ok (length heap, heap ++ [padded]).
Proof.
  intros Hb Hl. unfold pad_brick_data_from_volume_source_ref. rewrite Hb, Hl. reflexivity.
Qed.

(** C6, as stated, fails near the ends of [int64]: the brick with logical
    and physical box [((-2^63, 1, 1), (-2^63 + 3, 4, 4))] lies on the grid
    of block shape [(3, 3, 3)] and offset [(1, 1, 1)] (both [-2^63 - 1] and
    [-2^63 + 2] are multiples of 3), so its physical box is already aligned;
    but [logical_box - offset] wraps to [2^63 - 1], which is not a multiple
    of 3, and the call raises an assertion error instead of returning the
    brick. *)
Lemma pad_brick_data_overflow :
  let grid := mkGrid (mk3 3 3 3) (mk3 1 1 1) in
  let box : Box := (mk3 (- 2 ^ 63) 1 1, mk3 (- 2 ^ 63 + 3) 4 4) in
  let b := mkBrick box box (mkArray (mk3 3 3 3) uint8 (fun _ => 1)) in
  let f := fun halo : Box => mkArray (box_extent halo) uint8 (fun _ => 5) in
  grid_positive grid /\
  brick_ok b /\
  aligned_to_grid (logical_box b) grid /\
  aligned_to_grid (physical_box b) grid /\
  pad_brick_data_from_volume_source grid f b
  = Raise (AssertionError "Padding grid must be aligned with brick logical_box") /\
  pad_brick_data_from_volume_source_ref grid f 0 [b]
  = Raise (AssertionError "Padding grid must be aligned with brick logical_box").
Proof.
  cbv zeta. split; [|split; [|split; [|split; [|split]]]].
  - unfold grid_positive; simpl; lia.
  - unfold brick_ok, brick_invariant, shape_ok, v3le; simpl. repeat split; lia.
  - unfold aligned_to_grid, v3divides; simpl.
    repeat split; first [ exists 0; reflexivity | exists 1; reflexivity
                        | exists (- 3074457345618258603); reflexivity
                        | exists (- 3074457345618258602); reflexivity ].
  - unfold aligned_to_grid, v3divides; simpl.
    repeat split; first [ exists 0; reflexivity | exists 1; reflexivity
                        | exists (- 3074457345618258603); reflexivity
                        | exists (- 3074457345618258602); reflexivity ].
  - vm_compute. reflexivity.
  - vm_compute. reflexivity.
Qed.

(** C6, amended. Padding idempotence, away from the ends of [int64]: for a
    padding grid with a positive block shape and a brick whose logical box
    is aligned to the grid, all coordinates, block shape and offset being at
    most [2^60] in absolute value, padding the result of a padding again
    gives that result: on the store of bricks, the second call returns the
    reference that the first call returned and leaves the store as the first
    call left it (an exception of the first call is that of the whole).  When
    the physical box is already aligned, the call returns the reference it
    was given and the store unchanged: the input brick itself, no copy.  The
    same holds of the bricks as values. *)
Theorem pad_brick_data_idempotent (grid : Grid) (f : Box -> ndarray)
    (heap : list Brick) (brick : nat) (b : Brick) :
  grid_positive grid -> grid_small grid ->
  heap !! brick = Some b ->
  box_small (logical_box b) -> box_small (physical_box b) ->
  aligned_to_grid (logical_box b) grid ->
  rbind (pad_brick_data_from_volume_source_ref grid f brick heap)
        (fun r => pad_brick_data_from_volume_source_ref grid f (fst r) (snd r))
  = pad_brick_data_from_volume_source_ref grid f brick heap
  /\ (aligned_to_grid (physical_box b) grid ->
      pad_brick_data_from_volume_source_ref grid f brick heap = Ok (brick, heap) /\
      pad_brick_data_from_volume_source grid f b = Ok b)
  /\ rbind (pad_brick_data_from_volume_source grid f b)
           (pad_brick_data_from_volume_source grid f)
     = pad_brick_data_from_volume_source grid f b.
Proof.
  intros Hpos Hg Hb Hlog Hphys Hal.
  destruct (box_small_62 _ Hlog) as [L1 L2]. destruct (box_small_62 _ Hphys) as [P1 P2].
  assert (Hl : box_aligned (logical_box b) grid = true) by now apply box_aligned_spec.
  rewrite (pad_ref_unfold grid f brick heap b Hb Hl).
  split; [|split].
  - destruct (box_aligned (physical_box b) grid) eqn:Hp.
    + cbn [rbind fst snd]. rewrite (pad_ref_unfold grid f brick heap b Hb Hl), Hp. reflexivity.
    + destruct (pad_brick_data_from_volume_source grid f b) as [b'|e] eqn:E; [|reflexivity].
      cbn [rbind fst snd].
      destruct (pad_result_aligned grid f b b' Hpos Hg Hphys E) as [Hl' Hp'].
      rewrite (pad_ref_unfold grid f (length heap) (heap ++ [b']) b').
      * rewrite Hp'. reflexivity.
      * now apply list_lookup_middle.
      * exact Hl'.
  - intros Hpal.
    assert (Hp : box_aligned (physical_box b) grid = true) by now apply box_aligned_spec.
    rewrite Hp. split; [reflexivity | now apply pad_fast_path].
  - destruct (pad_brick_data_from_volume_source grid f b) as [b'|e] eqn:E; [|reflexivity].
    cbn [rbind]. destruct (pad_result_aligned grid f b b' Hpos Hg Hphys E) as [Hl' Hp'].
    now apply pad_fast_path.
Qed.

Lemma pad_brick_data_idempotent_witness :
  let grid := mkGrid (mk3 2 2 2) (mk3 0 0 0) in
  let f := fun _ : Box => mkArray (mk3 2 2 1) uint8 (fun _ => 5) in
  let b := mkBrick (mk3 0 0 0, mk3 2 2 4) (mk3 0 0 1, mk3 2 2 4)
                   (mkArray (mk3 2 2 3) uint8 (fun p => 1 + c2 p)) in
  let b2 := mkBrick (mk3 0 0 0, mk3 2 2 4) (mk3 0 0 2, mk3 2 2 4)
                    (mkArray (mk3 2 2 2) uint8 (fun p => 1 + c2 p)) in
  (rbind (pad_brick_data_from_volume_source_ref grid f 0 [b])
         (fun r => pad_brick_data_from_volume_source_ref grid f (fst r) (snd r))
   = pad_brick_data_from_volume_source_ref grid f 0 [b]
   /\ (aligned_to_grid (physical_box b) grid ->
       pad_brick_data_from_volume_source_ref grid f 0 [b] = Ok (0%nat, [b]) /\
       pad_brick_data_from_volume_source grid f b = Ok b)
   /\ rbind (pad_brick_data_from_volume_source grid f b)
            (pad_brick_data_from_volume_source grid f)
      = pad_brick_data_from_volume_source grid f b)
  /\ (pad_brick_data_from_volume_source_ref grid f 1 [b; b2] = Ok (1%nat, [b; b2]) /\
      pad_brick_data_from_volume_source grid f b2 = Ok b2).
Proof.
  intros grid f b b2.
  assert (Hpos : grid_positive grid) by (unfold grid_positive; simpl; lia).
  assert (Hg : grid_small grid)
    by (unfold grid_small, v3within; rewrite coord_bound_eq; simpl; lia).
  assert (Hs : forall x y : Z, 0 <= x <= 4 -> 0 <= y <= 4 ->
                 box_small (mk3 0 0 x, mk3 2 2 y))
    by (intros x y Hx Hy; unfold box_small, v3within; rewrite coord_bound_eq; simpl; lia).
  assert (Hal : forall x y : Z, (2 | x) -> (2 | y) ->
                  aligned_to_grid (mk3 0 0 x, mk3 2 2 y) grid).
  { intros x y Hx Hy. unfold aligned_to_grid, v3divides; simpl. rewrite !Z.sub_0_r.
    repeat split; first [ exact Hx | exact Hy | exists 0; reflexivity | exists 1; reflexivity ]. }
  split.
  - apply (pad_brick_data_idempotent grid f [b] 0 b Hpos Hg eq_refl).
    + apply Hs; lia.
    + apply Hs; lia.
    + apply Hal; [exists 0 | exists 2]; reflexivity.
  - apply (proj1 (proj2 (pad_brick_data_idempotent grid f [b; b2] 1 b2 Hpos Hg eq_refl
                           (Hs 0 4 ltac:(lia) ltac:(lia)) (Hs 2 4 ltac:(lia) ltac:(lia))
                           (Hal 0 4 ltac:(exists 0; reflexivity)
                                    ltac:(exists 2; reflexivity))))).
    apply Hal; [exists 1 | exists 2]; reflexivity.
Defined.

Example pad_brick_data_example :
  let grid := mkGrid (mk3 2 2 2) (mk3 0 0 0) in
  let f := fun _ : Box => mkArray (mk3 2 2 1) uint8 (fun _ => 5) in
  let b := mkBrick (mk3 0 0 0, mk3 2 2 4) (mk3 0 0 1, mk3 2 2 4)
                   (mkArray (mk3 2 2 3) uint8 (fun p => 1 + c2 p)) in
  match pad_brick_data_from_volume_source grid f b with
  | Ok b' =>
      logical_box b' = (mk3 0 0 0, mk3 2 2 4) /\
      physical_box b' = (mk3 0 0 0, mk3 2 2 4) /\
      map (fun x => brick_voxel b' (mk3 1 1 x)) [0; 1; 2; 3] = [5; 1; 2; 3]
  | Raise _ => False
  end.
Proof. vm_compute. repeat split; reflexivity. Qed.

(** ** The brick invariant *)



Example generate_bricks_example :
  match generate_bricks_from_volume_source (mk3 0 0 1, mk3 2 2 5)
          (mkGrid (mk3 2 2 4) (mk3 0 0 0))
          (fun box => mkArray (box_extent box) uint8 (fun p => c2 p)) with
  | Ok bricks =>
      map (fun b => (logical_box b, physical_box b)) bricks
      = [ ((mk3 0 0 0, mk3 2 2 4), (mk3 0 0 1, mk3 2 2 4));
          ((mk3 0 0 4, mk3 2 2 8), (mk3 0 0 4, mk3 2 2 5)) ]
  | Raise _ => False
  end.
Proof. vm_compute. reflexivity. Qed.

(** ** Lists of pairwise related elements *)

Section OrdPairs.
Context {A : Type}.
Variable R : A -> A -> Prop.

Lemma ForallOrdPairs_app (l1 l2 : list A) :
ForallOrdPairs R l1 -> ForallOrdPairs R l2 ->
(forall x y, In x l1 -> In y l2 -> R x y) ->
ForallOrdPairs R (l1 ++ l2).
Proof.
induction 1 as [|a l1 Ha H1 IH]; intros H2 H12; simpl; [assumption|].
constructor.
- apply List.Forall_app. split; [assumption|].
  apply List.Forall_forall. intros y Hy. apply H12; simpl; auto.
- apply IH; [assumption|]. intros x y Hx Hy. apply H12; simpl; auto.
Qed.


Lemma ForallOrdPairs_snoc (l : list A) (a : A) :
ForallOrdPairs R l -> (forall x, In x l -> R x a) -> ForallOrdPairs R (l ++ [a]).
Proof.
intros Hl Ha. apply ForallOrdPairs_app; [assumption | repeat constructor |].
intros x y Hx [<-|[]]. auto.
Qed.

Hypothesis R_sym : forall x y, R x y -> R y x.
Hypothesis R_irrefl_on : forall x, R x x -> False.

(** Two related-apart elements of the list that are not related are one. *)
Lemma ForallOrdPairs_In_eq (l : list A) (x y : A) :
ForallOrdPairs R l -> In x l -> In y l -> ~ R x y -> x = y.
Proof.
induction 1 as [|a l Ha H IH]; intros Hx Hy Hn; [destruct Hx|].
rewrite List.Forall_forall in Ha.
destruct Hx as [<-|Hx], Hy as [<-|Hy]; auto.
- exfalso. auto.
- exfalso. apply Hn, R_sym. auto.
Qed.
End OrdPairs.

Lemma ForallOrdPairs_map {A B} (R : B -> B -> Prop) (f : A -> B) (l : list A) :
  ForallOrdPairs (fun x y => R (f x) (f y)) l -> ForallOrdPairs R (map f l).
Proof.
  induction 1 as [|a l Ha H IH]; simpl; constructor; [|assumption].
  apply List.Forall_map. exact Ha.
Qed.


Lemma NoDup_map_ForallOrdPairs {A B} (f : A -> B) (l : list A) :
  List.NoDup (map f l) -> ForallOrdPairs (fun x y => f x <> f y) l.
Proof.
  induction l as [|a l IH]; simpl; intros H; [constructor|].
  inversion H as [|? ? Hnotin Hnd]; subst. constructor; [|auto].
  apply List.Forall_forall. intros x Hx E. apply Hnotin. rewrite E. now apply in_map.
Qed.

Lemma ForallOrdPairs_impl_In {A} (R R' : A -> A -> Prop) (l : list A) :
  (forall x y, In x l -> In y l -> R x y -> R' x y) ->
  ForallOrdPairs R l -> ForallOrdPairs R' l.
Proof.
  intros Himp H. induction H as [|a l Ha H IH]; constructor.
  - rewrite List.Forall_forall in *. intros x Hx. apply Himp; simpl; auto.
  - apply IH. intros x y Hx Hy. apply Himp; simpl; auto.
Qed.

(** ** Grouping by key *)

Lemma fragments_for_app (key : Box) (l1 l2 : list (Box * Brick)) :
  fragments_for key (l1 ++ l2) = fragments_for key l1 ++ fragments_for key l2.
Proof. unfold fragments_for. now rewrite List.filter_app, map_app. Qed.











(** ** Walls *)




Lemma Forall2_In_r {A B} (P : A -> B -> Prop) (l : list A) (l' : list B) (b : B) :
  Forall2 P l l' -> In b l' -> exists a, In a l /\ P a b.
Proof.
  induction 1 as [|a0 b0 l l' H0 H IH]; intros Hin; [destruct Hin|].
  destruct Hin as [<-|Hin]; [exists a0; simpl; auto|].
  destruct (IH Hin) as (a & Ha & Pa). exists a. simpl. auto.
Qed.

Lemma boxes_disjoint_sym (a b : Box) : boxes_disjoint a b -> boxes_disjoint b a.
Proof. intros H p [Ha Hb]. apply (H p). auto. Qed.




(** ** Splitting a whole wall *)

Lemma split_fragment_physical_subset (b : Brick) (box : Box) (p : Vec3) :
  in_box p (physical_box (split_fragment b box)) ->
  in_box p box /\ in_box p (physical_box b).
Proof. unfold split_fragment; simpl. apply in_box_intersection. Qed.


(** ** Assembling the groups *)











Example realign_round_trip_example :
  let G := mkGrid (mk3 1 1 2) (mk3 0 0 0) in
  let G' := mkGrid (mk3 1 1 3) (mk3 0 0 1) in
  let W := [ mkBrick (mk3 0 0 0, mk3 1 1 2) (mk3 0 0 1, mk3 1 1 2)
                     (mkArray (mk3 1 1 1) uint8 (fun _ => 11));
             mkBrick (mk3 0 0 2, mk3 1 1 4) (mk3 0 0 2, mk3 1 1 4)
                     (mkArray (mk3 1 1 2) uint8 (fun p => 20 + c2 p)) ] in
  match realign_bricks_to_new_grid G' W with
  | Ok W' =>
      map (fun kv => (fst kv, physical_box (snd kv))) W'
      = [ ((mk3 0 0 1, mk3 1 1 4), (mk3 0 0 1, mk3 1 1 4)) ] /\
      match realign_bricks_to_new_grid G (map snd W') with
      | Ok W'' =>
          map (fun kv => (physical_box (snd kv),
                          map (fun x => brick_voxel (snd kv) (mk3 0 0 x)) [1; 2; 3])) W''
          = [ ((mk3 0 0 1, mk3 1 1 2), [11; 0; 0]);
              ((mk3 0 0 2, mk3 1 1 4), [0; 20; 21]) ]
      | Raise _ => False
      end
  | Raise _ => False
  end.
Proof. vm_compute. split; reflexivity. Qed.

(** ** Downsampling *)







Example downsample_unaligned_example :
  downsample (fun v _ => Ok v) (fun v _ _ => Ok v)
             (mkArray (mk3 4 5 6) uint8 (fun _ => 1)) 2 "mode"
  = Raise (AssertionError unaligned_downsample_msg).
Proof. reflexivity. Qed.

Example downsample_subsample_example :
  match downsample (fun v _ => Ok v) (fun v _ _ => Ok v)
          (mkArray (mk3 2 2 4) uint8 (fun p => c2 p)) 2 "subsample" with
  | Ok v => shape v = mk3 1 1 2 /\ map (fun x => data v (mk3 0 0 x)) [0; 1] = [0; 2]
  | Raise _ => False
  end.
Proof. simpl. split; reflexivity. Qed.

(** ** Label maps *)

(** C8. An empty label map is a no-op that does not alias: when the config
    names no file and [unpersist_original] is false,
    [apply_labelmap_to_bricks] returns a collection other than the input
    collection, which holds references to the same bricks; no brick is
    changed, and unpersisting the output leaves the input collection as it
    was, persisted or not. *)
Theorem apply_labelmap_empty_is_fresh_copy
    (load_labelmap : LabelMapConfig -> string -> res (list (Z * Z)))
    (s : Spark) (bricks : nat) (r : RDD) (cfg : LabelMapConfig) (working_dir : string) :
  spark_ok s ->
  rdds s !! bricks = Some r ->
  file cfg = ""%string ->
  exists out s',
    apply_labelmap_to_bricks load_labelmap bricks cfg working_dir false s = Ok (out, s') /\
    out <> bricks /\
    (exists r', rdds s' !! out = Some r' /\ rdd_items r' = rdd_items r) /\
    heap s' = heap s /\
    rdd_bricks s' out = rdd_bricks s bricks /\
    rdds s' !! bricks = Some r /\
    rdds (unpersist out s') !! bricks = Some r /\
    heap (unpersist out s') = heap s.
Proof.
  intros Hok Hr Hfile.
  assert (Hlt : (bricks < next_rdd s)%nat) by (apply Hok; rewrite Hr; eauto).
  assert (Hne : next_rdd s <> bricks) by lia.
  unfold apply_labelmap_to_bricks, rt_map. rewrite Hfile, Hr. simpl.
  eexists _, _. split; [reflexivity|]. simpl.
  split; [exact Hne|]. split.
  - eexists. split; [apply lookup_insert_eq|]. simpl. apply map_id.
  - split; [reflexivity|]. split.
    + unfold rdd_bricks; simpl. rewrite lookup_insert_eq, Hr. simpl.
      rewrite List.map_id. reflexivity.
    + split; [rewrite lookup_insert_ne by exact Hne; exact Hr|].
      unfold unpersist; simpl. rewrite lookup_insert_eq. simpl.
      split; [|reflexivity].
      rewrite !lookup_insert_ne by exact Hne. exact Hr.
Qed.

Lemma apply_labelmap_empty_is_fresh_copy_witness :
  let b := mkBrick (mk3 0 0 0, mk3 1 1 1) (mk3 0 0 0, mk3 1 1 1)
                   (mkArray (mk3 1 1 1) uint64 (fun _ => 7)) in
  let r := mkRDD [0%nat] true in
  let s := mkSpark {[ 0%nat := r ]} {[ 0%nat := b ]} 1 in
  let load := fun (_ : LabelMapConfig) (_ : string) => Ok [(7, 8)] in
  let cfg := mkLabelMapConfig "" "label-to-body" in
  exists out s',
    apply_labelmap_to_bricks load 0%nat cfg "/tmp" false s = Ok (out, s') /\
    out <> 0%nat /\
    (exists r', rdds s' !! out = Some r' /\ rdd_items r' = rdd_items r) /\
    heap s' = heap s /\
    rdd_bricks s' out = rdd_bricks s 0%nat /\
    rdds s' !! 0%nat = Some r /\
    rdds (unpersist out s') !! 0%nat = Some r /\
    heap (unpersist out s') = heap s.
Proof.
  intros b r s load cfg.
  apply (apply_labelmap_empty_is_fresh_copy load s 0%nat r cfg "/tmp").
  - intros id [x Hx]. simpl in *. apply lookup_singleton_Some in Hx as [<- _]. lia.
  - reflexivity.
  - reflexivity.
Defined.

(** ** The global merge of [Segmentor.stitch] *)

Lemma fold_retarget_spec (body2 : N) (l : list N) (m : gmap N N) (s : gmap N (gset N))
    (S2 : gset N) :
  s !! body2 = Some S2 ->
  (forall z, fst (fold_left (retarget body2) l (m, s)) !! z
             = if decide (z ∈ l) then Some body2 else m !! z) /\
  snd (fold_left (retarget body2) l (m, s)) !! body2 = Some (S2 ∪ list_to_set l) /\
  (forall r, r <> body2 -> snd (fold_left (retarget body2) l (m, s)) !! r = s !! r).
Proof.
  revert m s S2. induction l as [|t l IH]; intros m s S2 H.
  - cbn [fold_left fst snd]. split; [|split].
    + intros z. case_decide as Hz; [|reflexivity]. now apply elem_of_nil in Hz.
    + rewrite H. f_equal. set_solver.
    + reflexivity.
  - cbn [fold_left].
    replace (retarget body2 (m, s) t) with (<[t:=body2]> m, <[body2:=S2 ∪ {[t]}]> s)
      by (unfold retarget; cbn [fst snd]; rewrite H; reflexivity).
    destruct (IH (<[t:=body2]> m) (<[body2:=S2 ∪ {[t]}]> s) (S2 ∪ {[t]})) as (A & B & C).
    { apply lookup_insert_eq. }
    split; [|split].
    + intros z. rewrite A.
      destruct (decide (z ∈ l)) as [Hin|Hnin].
      * rewrite decide_True; [reflexivity | set_solver].
      * destruct (decide (z = t)) as [->|Hne].
        -- rewrite lookup_insert_eq. rewrite decide_True; [reflexivity | set_solver].
        -- rewrite lookup_insert_ne by congruence.
           rewrite decide_False; [reflexivity | set_solver].
    + rewrite B. f_equal. set_solver.
    + intros r Hr. rewrite (C r Hr). now rewrite lookup_insert_ne.
Qed.

Lemma find_label_Some (m : gmap N N) (x r : N) : m !! x = Some r -> find_label m x = r.
Proof. unfold find_label. now intros ->. Qed.

Lemma find_label_None (m : gmap N N) (x : N) : m !! x = None -> find_label m x = x.
Proof. unfold find_label. now intros ->. Qed.

Lemma find_label_root (st : gmap N N * gmap N (gset N)) (x : N) :
  merge_inv st -> find_label (fst st) (find_label (fst st) x) = find_label (fst st) x.
Proof.
  intros [K _]. destruct (fst st !! x) as [r|] eqn:E.
  - rewrite (find_label_Some _ _ _ E). exact (proj1 (K x r E)).
  - rewrite (find_label_None _ _ E). now apply find_label_None.
Qed.

(** The labels recorded for a root are the labels mapped to it. *)
Lemma merge_inv_members (st : gmap N N * gmap N (gset N)) (r z : N) :
  merge_inv st -> find_label (fst st) r = r ->
  (z = r \/ z ∈ default ∅ (snd st !! r)) <-> find_label (fst st) z = r.
Proof.
  intros [K J] Hroot. split.
  - intros [->|Hz]; [exact Hroot|].
    destruct (snd st !! r) as [S|] eqn:E; simpl in Hz; [|set_solver].
    apply find_label_Some. exact (J r S z E Hroot Hz).
  - intros Hz. destruct (fst st !! z) as [r'|] eqn:E.
    + rewrite (find_label_Some _ _ _ E) in Hz. subst r'.
      destruct (K z r E) as (_ & S & ES & HS). right. now rewrite ES.
    + rewrite (find_label_None _ _ E) in Hz. now left.
Qed.

(** One step of the loop, in terms of the lookups of its result. *)
Lemma merge_step_spec (m : gmap N N) (s : gmap N (gset N)) (a b : N) :
  merge_inv (m, s) ->
  let body1 := find_label m a in
  let body2 := find_label m b in
  let st' := merge_step (m, s) (a, b) in
  (forall z, fst st' !! z
             = if decide (find_label m z = body1) then Some body2 else m !! z) /\
  (exists S', snd st' !! body2 = Some S' /\
              forall t, t ∈ S' <-> t ∈ default ∅ (s !! body2) \/ find_label m t = body1) /\
  (forall r, r <> body2 -> snd st' !! r = s !! r).
Proof.
  intros Hinv body1 body2 st'.
  assert (Hroot1 : find_label m body1 = body1) by apply (find_label_root (m, s) a Hinv).
  pose proof (merge_inv_members (m, s) body1) as Hmem. simpl in Hmem.
  specialize (fun z => Hmem z Hinv Hroot1).
  subst st'. unfold merge_step. simpl. fold (find_label m a) (find_label m b).
  fold body1 body2.
  set (s1 := match s !! body2 with None => <[body2:=∅]> s | Some _ => s end).
  assert (Hs1 : default ∅ (s1 !! body2) = default ∅ (s !! body2)).
  { subst s1. destruct (s !! body2) eqn:E; [now rewrite E|]. now rewrite lookup_insert_eq. }
  rewrite Hs1.
  set (S2 := default ∅ (s !! body2)).
  set (s2 := <[body2:=S2 ∪ {[body1]}]> s1).
  assert (Hs2 : s2 !! body2 = Some (S2 ∪ {[body1]})) by apply lookup_insert_eq.
  assert (Hs2ne : forall r, r <> body2 -> s2 !! r = s !! r).
  { intros r Hr. subst s2 s1. rewrite lookup_insert_ne by congruence.
    destruct (s !! body2); [reflexivity|]. now rewrite lookup_insert_ne by congruence. }
  destruct (s2 !! body1) as [T|] eqn:ET.
  - destruct (fold_retarget_spec body2 (elements T) (<[body1:=body2]> m) s2 _ Hs2)
      as (A & B & C).
    assert (HT : forall z, z ∈ T <-> z ∈ default ∅ (s !! body1) \/ (body1 = body2 /\ z = body1)).
    { intros z. destruct (decide (body1 = body2)) as [E|E].
      - rewrite E in ET. rewrite Hs2 in ET. inversion ET; subst T.
        subst S2. rewrite E. set_solver.
      - rewrite Hs2ne in ET by exact E. rewrite ET. simpl. set_solver. }
    split; [|split].
    + intros z. rewrite A.
      destruct (decide (find_label m z = body1)) as [Hz|Hz].
      * apply Hmem in Hz. destruct (decide (z ∈ elements T)) as [|Hn]; [reflexivity|].
        destruct Hz as [->|Hz]; [now rewrite lookup_insert_eq|].
        exfalso. apply Hn. apply elem_of_elements, HT. now left.
      * rewrite decide_False.
        -- rewrite lookup_insert_ne; [reflexivity|]. intros <-. now apply Hz.
        -- intros Hin. apply elem_of_elements, HT in Hin. apply Hz, Hmem.
           destruct Hin as [Hin|[_ ->]]; auto.
    + eexists. split; [exact B|]. intros t.
      rewrite !elem_of_union, elem_of_singleton, elem_of_list_to_set, elem_of_elements, HT.
      rewrite <- Hmem. subst S2. tauto.
    + intros r Hr. rewrite (C r Hr). now apply Hs2ne.
  - simpl.
    assert (Hne : body1 <> body2) by (intros E; rewrite E, Hs2 in ET; discriminate).
    assert (Hnone : s !! body1 = None) by (rewrite <- Hs2ne by exact Hne; exact ET).
    rewrite Hnone in Hmem. simpl in Hmem.
    split; [|split].
    + intros z. destruct (decide (find_label m z = body1)) as [Hz|Hz].
      * apply Hmem in Hz as [->|Hz]; [now rewrite lookup_insert_eq | set_solver].
      * rewrite lookup_insert_ne; [reflexivity|]. intros <-. now apply Hz.
    + eexists. split; [exact Hs2|]. intros t.
      rewrite elem_of_union, elem_of_singleton, <- Hmem. set_solver.
    + exact Hs2ne.
Qed.

Lemma merge_step_find (m : gmap N N) (s : gmap N (gset N)) (a b z : N) :
  merge_inv (m, s) ->
  find_label (fst (merge_step (m, s) (a, b))) z
  = if decide (find_label m z = find_label m a) then find_label m b else find_label m z.
Proof.
  intros Hinv. destruct (merge_step_spec m s a b Hinv) as (A & _ & _).
  unfold find_label at 1. rewrite A. now case_decide.
Qed.

Lemma merge_step_inv (m : gmap N N) (s : gmap N (gset N)) (a b : N) :
  merge_inv (m, s) -> merge_inv (merge_step (m, s) (a, b)).
Proof.
  intros Hinv. destruct (merge_step_spec m s a b Hinv) as (A & (S' & ES' & HS') & C).
  pose proof (merge_step_find m s a b) as F. specialize (fun z => F z Hinv).
  pose proof (find_label_root (m, s) b Hinv) as Hroot2. simpl in Hroot2.
  pose proof Hinv as [K J]. simpl in K, J.
  set (body1 := find_label m a) in *. set (body2 := find_label m b) in *.
  set (st' := merge_step (m, s) (a, b)) in *.
  assert (Hroot2' : find_label (fst st') body2 = body2).
  { rewrite F. now case_decide. }
  split.
  - intros x r Hx. rewrite A in Hx. case_decide as Hfx.
    + inversion Hx; subst r. split; [exact Hroot2'|].
      exists S'. split; [exact ES'|]. apply HS'. now right.
    + destruct (K x r Hx) as (Hr & S & ES & HxS).
      assert (Hne : r <> body1) by (rewrite <- (find_label_Some _ _ _ Hx); exact Hfx).
      split.
      * rewrite F. rewrite Hr. now rewrite decide_False.
      * destruct (decide (r = body2)) as [->|Hr2].
        -- exists S'. split; [exact ES'|]. apply HS'. left. now rewrite ES.
        -- exists S. split; [|exact HxS]. now rewrite C.
  - intros r S t ES Hr Ht. rewrite A.
    destruct (decide (r = body2)) as [->|Hr2].
    + rewrite ES' in ES. inversion ES; subst S. apply HS' in Ht.
      case_decide as Hft; [reflexivity|].
      destruct Ht as [Ht|Ht]; [|contradiction].
      destruct (s !! body2) as [S2|] eqn:E2; simpl in Ht; [|set_solver].
      exact (J body2 S2 t E2 Hroot2 Ht).
    + rewrite C in ES by exact Hr2. rewrite F in Hr.
      case_decide as Hfr; [congruence|].
      pose proof (J r S t ES Hr Ht) as Hmt.
      rewrite decide_False; [exact Hmt|].
      rewrite (find_label_Some _ _ _ Hmt). congruence.
Qed.

(** *** Connected components *)

Lemma connected_edge (l : list (N * N)) (a b : N) : In (a, b) l -> connected l a b.
Proof. intros H. now apply Relation_Operators.rst_step. Qed.

Lemma connected_refl (l : list (N * N)) (x : N) : connected l x x.
Proof. apply Relation_Operators.rst_refl. Qed.

Lemma connected_sym (l : list (N * N)) (x y : N) : connected l x y -> connected l y x.
Proof. apply Relation_Operators.rst_sym. Qed.

Lemma connected_trans (l : list (N * N)) (x y z : N) :
  connected l x y -> connected l y z -> connected l x z.
Proof. apply Relation_Operators.rst_trans. Qed.

Lemma connected_mono (l l' : list (N * N)) (x y : N) :
  (forall e, In e l -> In e l') -> connected l x y -> connected l' x y.
Proof.
  intros Hsub H. induction H as [x y Hxy|x|x y _ IH|x y z _ IH1 _ IH2].
  - apply connected_edge. auto.
  - apply connected_refl.
  - now apply connected_sym.
  - eapply connected_trans; eauto.
Qed.

(** The classes of the final labels are the connected components of the
    edges, and the final label of a label belongs to its component. *)
Lemma global_merge_spec (l : list (N * N)) :
  merge_inv (global_merge l) /\
  (forall x y, find_label (fst (global_merge l)) x = find_label (fst (global_merge l)) y
               <-> connected l x y) /\
  (forall x, connected l x (find_label (fst (global_merge l)) x)).
Proof.
  induction l as [|[a b] l IH] using rev_ind.
  - unfold global_merge; simpl. split; [|split].
    + split; simpl; intros; rewrite lookup_empty in *; discriminate.
    + intros x y. unfold find_label. rewrite !lookup_empty. simpl. split.
      * intros ->. apply connected_refl.
      * intros H. induction H as [x y []|x|x y _ IH|x y z _ IH1 _ IH2]; congruence.
    + intros x. unfold find_label. rewrite lookup_empty. apply connected_refl.
  - destruct IH as (Hinv & Hcls & Hrep).
    unfold global_merge in *. rewrite fold_left_app. cbn [fold_left].
    destruct (fold_left merge_step l (∅, ∅)) as [m s] eqn:Est. simpl in Hcls, Hrep.
    pose proof (merge_step_find m s a b) as F. specialize (fun z => F z Hinv).
    assert (Hmono : forall x y, connected l x y -> connected (l ++ [(a, b)]) x y).
    { intros x y. apply connected_mono. intros e He. apply in_or_app. now left. }
    assert (Hab : connected (l ++ [(a, b)]) a b).
    { apply connected_edge. apply in_or_app. right. now left. }
    split; [now apply merge_step_inv|]. split.
    + intros x y. rewrite !F. split.
      * intros H. repeat case_decide.
        -- apply Hmono, Hcls. congruence.
        -- eapply connected_trans; [apply Hmono, Hcls; eassumption|].
           eapply connected_trans; [exact Hab|]. apply Hmono, Hcls. exact H.
        -- apply connected_sym.
           eapply connected_trans; [apply Hmono, Hcls; eassumption|].
           eapply connected_trans; [exact Hab|]. apply Hmono, Hcls. now symmetry.
        -- apply Hmono, Hcls. exact H.
      * intros H. induction H as [x y Hxy|x|x y _ IH|x y z _ IH1 _ IH2].
        -- apply in_app_or in Hxy as [Hxy|[E|[]]].
           ++ apply connected_edge, Hcls in Hxy. rewrite Hxy. reflexivity.
           ++ inversion E; subst x y. rewrite decide_True by reflexivity.
              now case_decide.
        -- reflexivity.
        -- now symmetry.
        -- now rewrite IH1.
    + intros x. rewrite F. case_decide as Hx.
      * eapply connected_trans; [apply Hmono, Hcls; exact Hx|].
        eapply connected_trans; [exact Hab|]. apply Hmono, Hrep.
      * apply Hmono, Hrep.
Qed.

(** C3, as stated, fails: for the single candidate edge [1, 2] the loop maps
    label 1 to 2 (the second endpoint keeps its label), while the union-find
    of the spec picks 1, the smallest label of the component. *)
Lemma stitch_final_label_not_smallest :
  stitch_final_label [(1%N, 2%N)] 1%N = 2%N /\
  uf_min_representative [(1%N, 2%N)] 1%N = 1%N.
Proof. split; vm_compute; reflexivity. Qed.

Lemma stitch_final_label_spec_helper (merge_list : list (N * N)) :
  (forall x y, stitch_final_label merge_list x = stitch_final_label merge_list y
               <-> connected merge_list x y) /\
  (forall x, connected merge_list x (stitch_final_label merge_list x)).
Proof.
  destruct (global_merge_spec merge_list) as (_ & Hcls & Hrep).
  split; [exact Hcls | exact Hrep].
Qed.

(** C3, amended. Stitch global merge computes the connected components: for
    every list of candidate merge edges, the final label remapping built
    from them maps two labels to the same representative exactly when the
    edges connect them, and the representative of a label is a label of its
    own component (not the smallest one in general). *)
Theorem stitch_final_label_components (merge_list : list (N * N)) :
  (forall x y, stitch_final_label merge_list x = stitch_final_label merge_list y
               <-> connected merge_list x y) /\
  (forall x, connected merge_list x (stitch_final_label merge_list x)).
Proof.
  destruct (global_merge_spec merge_list) as (_ & Hcls & Hrep).
  split; [exact Hcls | exact Hrep].
Qed.

Example stitch_final_label_example :
  map (stitch_final_label [(1, 2); (3, 1); (7, 8); (2, 5)]%N) [1; 2; 3; 5; 7; 8; 9]%N
  = [5; 5; 5; 5; 8; 8; 9]%N.
Proof. vm_compute. reflexivity. Qed.

Example uf_min_representative_example :
  map (uf_min_representative [(1, 2); (3, 1); (7, 8); (2, 5)]%N) [1; 2; 3; 5; 7; 8; 9]%N
  = [1; 1; 1; 1; 7; 7; 9]%N.
Proof. vm_compute. reflexivity. Qed.

(** ** The stitcher *)

(** *** Dictionaries *)

Lemma Forall_dict_set {V} (P : N * V -> Prop) (k : N) (v : V) (d : dict V) :
  Forall P d -> P (k, v) -> Forall P (dict_set k v d).
Proof.
  intros Hd Hk. induction Hd as [|[k' v'] d Hkv Hd IH]; simpl.
  - now constructor.
  - destruct (N.eqb_spec k k') as [<-|Hne]; constructor; auto.
Qed.

Lemma dict_get_Forall {V} (P : N * V -> Prop) (k : N) (v : V) (d : dict V) :
  Forall P d -> dict_get k d = Some v -> P (k, v).
Proof.
  induction 1 as [|[k' v'] d Hkv Hd IH]; simpl; [discriminate|].
  destruct (N.eqb_spec k k') as [->|Hne]; [|exact IH].
  intros E. inversion E; subst. exact Hkv.
Qed.

Lemma dict_get_In {V} (k : N) (v : V) (d : dict V) : dict_get k d = Some v -> In (k, v) d.
Proof.
  induction d as [|[k' v'] d IH]; simpl; [discriminate|].
  destruct (N.eqb_spec k k') as [->|Hne].
  - intros E. inversion E. now left.
  - intros E. right. auto.
Qed.

Lemma dict_set_keys {V} (k : N) (v : V) (d : dict V) :
  In k (map fst d) -> map fst (dict_set k v d) = map fst d.
Proof.
  induction d as [|[k' v'] d IH]; simpl; [intros []|].
  destruct (N.eqb_spec k k') as [->|Hne]; [reflexivity|].
  intros [E|Hin]; [congruence|]. simpl. now rewrite IH.
Qed.

Lemma dict_get_is_Some {V} (k : N) (d : dict V) :
  In k (map fst d) -> exists v, dict_get k d = Some v.
Proof.
  induction d as [|[k' v'] d IH]; simpl; [intros []|].
  destruct (N.eqb_spec k k') as [->|Hne]; [eauto|].
  intros [E|Hin]; [congruence | auto].
Qed.

Lemma dict_get_set_eq {V} (k : N) (v : V) (d : dict V) :
  dict_get k (dict_set k v d) = Some v.
Proof.
  induction d as [|[k' v'] d IH]; simpl.
  - now rewrite N.eqb_refl.
  - destruct (N.eqb_spec k k') as [->|Hne]; simpl.
    + now rewrite N.eqb_refl.
    + destruct (N.eqb_spec k k'); [congruence | exact IH].
Qed.

Lemma dict_get_set_ne {V} (k k' : N) (v : V) (d : dict V) :
  k <> k' -> dict_get k' (dict_set k v d) = dict_get k' d.
Proof.
  intros Hne. induction d as [|[k0 v0] d IH]; simpl.
  - destruct (N.eqb_spec k' k); [congruence | reflexivity].
  - destruct (N.eqb_spec k k0) as [->|Hne0]; simpl.
    + destruct (N.eqb_spec k' k0); [congruence | reflexivity].
    + destruct (N.eqb_spec k' k0); [reflexivity | exact IH].
Qed.

(** *** [numpy.unique] *)

Lemma In_insert_sorted (x y : N) (l : list N) :
  In y (insert_sorted x l) <-> y = x \/ In y l.
Proof.
  induction l as [|z l IH]; simpl; [intuition|].
  destruct (N.ltb_spec x z); simpl; [intuition|].
  destruct (N.eqb_spec x z) as [->|Hne]; simpl; [intuition|].
  rewrite IH. intuition.
Qed.

Lemma In_np_unique (x : N) (l : list N) : In x (np_unique l) <-> In x l.
Proof.
  unfold np_unique. induction l as [|y l IH]; simpl; [reflexivity|].
  rewrite In_insert_sorted, IH. intuition.
Qed.

(** *** Counting the votes *)

Lemma count_vote_spec (d : dict (dict Z)) (vote : N * N) :
  votes_nonzero d ->
  (fst vote <> 0%N -> In (fst vote) (map fst d)) ->
  exists d', count_vote (Ok d) vote = Ok d' /\ votes_nonzero d' /\ map fst d' = map fst d.
Proof.
  intros Hnz Hkey. destruct vote as [outer inner]. unfold count_vote. simpl in *.
  destruct (N.eqb_spec outer 0) as [->|Ho]; simpl; [eauto|].
  destruct (N.eqb_spec inner 0) as [->|Hi]; simpl; [eauto|].
  destruct (dict_get_is_Some outer d (Hkey Ho)) as (bodydict & E). rewrite E.
  eexists. split; [reflexivity|]. split.
  - apply Forall_dict_set; [exact Hnz|]. simpl. split; [exact Ho|].
    apply Forall_dict_set; [|exact Hi].
    exact (proj2 (dict_get_Forall _ _ _ _ Hnz E)).
  - apply dict_set_keys. auto.
Qed.

Lemma initial_votes_nonzero (bodies : list N) :
  votes_nonzero (map (fun body => (body, @nil (N * Z)))
                     (List.filter (fun body => negb (body =? 0)%N) bodies)).
Proof.
  apply List.Forall_forall. intros [k v] Hin.
  apply in_map_iff in Hin as (body & E & Hin). inversion E; subst. simpl.
  apply List.filter_In in Hin as [_ Hin]. rewrite negb_true_iff, N.eqb_neq in Hin.
  split; [exact Hin | constructor].
Qed.

Lemma fold_count_vote_spec (bodies : list N) (votes : list (N * N)) (d0 : dict (dict Z)) :
  (forall body, In body (map fst d0) <-> In body bodies /\ body <> 0%N) ->
  votes_nonzero d0 ->
  (forall vote, In vote votes -> In (fst vote) bodies) ->
  exists d, fold_left count_vote votes (Ok d0) = Ok d /\ votes_nonzero d /\
            (forall body, In body (map fst d) <-> In body bodies /\ body <> 0%N).
Proof.
  revert d0. induction votes as [|vote votes IH]; intros d0 Hkeys0 Hnz0 Hvotes; cbn [fold_left].
  - eauto.
  - destruct (count_vote_spec d0 vote Hnz0) as (d' & E & Hnz' & Hk').
    { intros Hne. apply Hkeys0. split; [apply Hvotes; now left | exact Hne]. }
    rewrite E. apply IH.
    + intros body. rewrite Hk'. apply Hkeys0.
    + exact Hnz'.
    + intros v Hv. apply Hvotes. now right.
Qed.

Lemma count_overlaps_spec (bodies : list N) (votes : list (N * N)) :
  (forall vote, In vote votes -> In (fst vote) bodies) ->
  exists d, count_overlaps bodies votes = Ok d /\ votes_nonzero d /\
            (forall body, In body (map fst d) <-> In body bodies /\ body <> 0%N).
Proof.
  intros Hvotes. unfold count_overlaps.
  apply fold_count_vote_spec; [|apply initial_votes_nonzero|exact Hvotes].
  intros body. rewrite map_map. simpl. rewrite List.map_id, List.filter_In.
  rewrite negb_true_iff, N.eqb_neq. reflexivity.
Qed.

Lemma fold_count_vote_Raise (votes : list (N * N)) (e : exn) (d : dict (dict Z)) :
  fold_left count_vote votes (Raise e) = Ok d -> False.
Proof.
  induction votes as [|v votes IH]; cbn [fold_left]; [discriminate | exact IH].
Qed.

Lemma fold_count_vote_nonzero (votes : list (N * N)) (d0 d : dict (dict Z)) :
  votes_nonzero d0 -> fold_left count_vote votes (Ok d0) = Ok d -> votes_nonzero d.
Proof.
  revert d0. induction votes as [|[outer inner] votes IH]; intros d0 Hnz0; cbn [fold_left].
  - intros E. inversion E; subst. exact Hnz0.
  - unfold count_vote at 2. cbn [rbind].
    destruct ((outer =? 0)%N || (inner =? 0)%N) eqn:Ez; [now apply IH|].
    apply orb_false_iff in Ez as [Ho Hi]. apply N.eqb_neq in Ho, Hi.
    destruct (dict_get outer d0) as [bodydict|] eqn:E.
    + apply IH. apply Forall_dict_set; [exact Hnz0|]. simpl. split; [exact Ho|].
      apply Forall_dict_set; [|exact Hi].
      exact (proj2 (dict_get_Forall _ _ _ _ Hnz0 E)).
    + intros H. exfalso. exact (fold_count_vote_Raise _ _ _ H).
Qed.

Lemma count_overlaps_nonzero (bodies : list N) (votes : list (N * N)) (d : dict (dict Z)) :
  count_overlaps bodies votes = Ok d -> votes_nonzero d.
Proof.
  unfold count_overlaps. apply fold_count_vote_nonzero, initial_votes_nonzero.
Qed.

(** The best overlap is one of the labels counted, and lies above [hard_lb]. *)
Lemma best_overlap_key (bodydict : dict Z) (b : N) (max_val total_val : Z) :
  best_overlap bodydict = (Some b, max_val, total_val) ->
  In b (map fst bodydict) /\ hard_lb < max_val.
Proof.
  unfold best_overlap.
  assert (H : forall l st,
             (forall kv, In kv l -> In kv bodydict) ->
             hard_lb <= snd (fst st) ->
             (forall b0, fst (fst st) = Some b0 ->
                         In b0 (map fst bodydict) /\ hard_lb < snd (fst st)) ->
             hard_lb <= snd (fst (fold_left best_step l st)) /\
             (forall b0, fst (fst (fold_left best_step l st)) = Some b0 ->
                         In b0 (map fst bodydict) /\
                         hard_lb < snd (fst (fold_left best_step l st)))).
  { induction l as [|[body val] l IH]; intros st Hl Hge Hst; cbn [fold_left].
    - auto.
    - apply IH; [intros kv' Hkv'; apply Hl; now right | |];
        destruct st as [[bodysave mv] tv]; simpl in *;
        destruct (Z.ltb_spec mv val); simpl; try lia; auto.
      intros b0 E. inversion E; subst. split; [|lia].
      apply in_map_iff. exists (b0, val). split; [reflexivity|]. apply Hl. now left. }
  intros E. destruct (H bodydict (None, hard_lb, 0)) as [_ H']; simpl; auto; try lia.
  { intros b0 [=]. }
  rewrite E in H'. simpl in H'. exact (H' b eq_refl).
Qed.

(** *** No edge involves the background *)

Lemma edges_nonzero_snoc (merges : list (N * N)) (a b : N) :
  edges_nonzero merges -> a <> 0%N -> b <> 0%N -> edges_nonzero (merges ++ [(a, b)]).
Proof.
  intros H Ha Hb e He. apply in_app_or in He as [He|[<-|[]]]; [auto | simpl; auto].
Qed.

Lemma best_overlap_nonzero (bodydict : dict Z) (b : N) (max_val total_val : Z) :
  Forall (fun kv => fst kv <> 0%N) bodydict ->
  best_overlap bodydict = (Some b, max_val, total_val) -> b <> 0%N.
Proof.
  intros Hnz E. apply best_overlap_key in E as [Hin _].
  apply in_map_iff in Hin as (kv & <- & Hkv).
  rewrite List.Forall_forall in Hnz. auto.
Qed.

Lemma first_pass_step_nonzero (stitch_mode : Z) (eligible_bodies : gset N)
    (st : merge_lists) (item : N * dict Z) :
  fst item <> 0%N -> Forall (fun kv => fst kv <> 0%N) (snd item) ->
  edges_nonzero (merge_list st) ->
  edges_nonzero (merge_list (first_pass_step stitch_mode eligible_bodies st item)).
Proof.
  intros H1 H2 Hst. destruct item as [body2 bodydict]. simpl in *.
  unfold first_pass_step. case_bool_decide; [|exact Hst].
  destruct (best_overlap bodydict) as [[[bodysave|] max_val] total_val] eqn:E; [|exact Hst].
  pose proof (best_overlap_nonzero _ _ _ _ H2 E).
  destruct (_ && _); [exact Hst|]. destruct (_ && _); simpl; [|exact Hst].
  now apply edges_nonzero_snoc.
Qed.

Lemma second_pass_step_nonzero (stitch_mode : Z) (eligible_bodies : gset N)
    (st : merge_lists) (item : N * dict Z) :
  fst item <> 0%N -> Forall (fun kv => fst kv <> 0%N) (snd item) ->
  edges_nonzero (merge_list st) ->
  edges_nonzero (merge_list (second_pass_step stitch_mode eligible_bodies st item)).
Proof.
  intros H1 H2 Hst. destruct item as [body1 bodydict]. simpl in *.
  unfold second_pass_step. case_bool_decide; [|exact Hst].
  destruct (best_overlap bodydict) as [[[bodysave|] max_val] total_val] eqn:E; [|exact Hst].
  pose proof (best_overlap_nonzero _ _ _ _ H2 E).
  case_bool_decide; [exact Hst|].
  destruct (_ && _); [exact Hst|]. destruct (_ && _); simpl.
  - now apply edges_nonzero_snoc.
  - destruct (mutual_list st !! body1) as [partners|]; [|exact Hst].
    destruct (partners !! bodysave); [|exact Hst]. simpl.
    now apply edges_nonzero_snoc.
Qed.

Lemma fold_pass_nonzero (step : merge_lists -> N * dict Z -> merge_lists)
    (body2body : dict (dict Z)) (st : merge_lists) :
  (forall st item, fst item <> 0%N -> Forall (fun kv => fst kv <> 0%N) (snd item) ->
     edges_nonzero (merge_list st) -> edges_nonzero (merge_list (step st item))) ->
  votes_nonzero body2body ->
  edges_nonzero (merge_list st) ->
  edges_nonzero (merge_list (fold_left step body2body st)).
Proof.
  intros Hstep Hnz. revert st.
  induction Hnz as [|item d [H1 H2] _ IH]; intros st Hst; cbn [fold_left]; auto.
Qed.

Lemma local_merge_list_nonzero (touches : Z -> Z -> Z -> Z -> bool) (stitch_mode : Z)
    (subvolume1 subvolume2 : Subvolume) (boundary1 boundary2 : label_array)
    (merges : list (N * N)) :
  local_merge_list touches stitch_mode subvolume1 subvolume2 boundary1 boundary2 = Ok merges ->
  edges_nonzero merges.
Proof.
  unfold local_merge_list. intros H.
  apply rbind_Ok_inv in H as (d2 & Hd2 & H).
  apply rbind_Ok_inv in H as (d1 & Hd1 & H).
  inversion H; subst merges; clear H.
  assert (Hnz2 : votes_nonzero d2).
  { destruct (0 <? stitch_mode); [now apply count_overlaps_nonzero in Hd2|].
    inversion Hd2. constructor. }
  assert (Hnz1 : votes_nonzero d1).
  { destruct (0 <? stitch_mode); [now apply count_overlaps_nonzero in Hd1|].
    inversion Hd1. constructor. }
  apply fold_pass_nonzero; [apply second_pass_step_nonzero | exact Hnz1 |].
  apply fold_pass_nonzero; [apply first_pass_step_nonzero | exact Hnz2 |].
  intros e [].
Qed.

(** *** Conservative mode *)

Lemma mutual_has_insert (mutual : gmap N (gmap N Z)) (bodysave body2 : N) (max_val : Z)
    (b1 b2 : N) :
  mutual_has (<[bodysave := <[body2 := max_val]> (default ∅ (mutual !! bodysave))]> mutual) b1 b2
  <-> mutual_has mutual b1 b2 \/ (b1 = bodysave /\ b2 = body2).
Proof.
  unfold mutual_has. destruct (decide (b1 = bodysave)) as [->|Hne].
  - rewrite lookup_insert_eq. split.
    + intros (partners & E & Hs). inversion E; subst partners; clear E.
      destruct (decide (b2 = body2)) as [->|Hne2]; [now right|].
      rewrite lookup_insert_ne in Hs by congruence. left.
      destruct (mutual !! bodysave) as [partners|]; simpl in Hs.
      * eauto.
      * rewrite lookup_empty in Hs. now destruct Hs.
    + intros [(partners & E & Hs)|[_ ->]].
      * eexists. split; [reflexivity|]. rewrite E. simpl.
        destruct (decide (b2 = body2)) as [->|Hne2].
        -- rewrite lookup_insert_eq. eauto.
        -- now rewrite lookup_insert_ne by congruence.
      * eexists. split; [reflexivity|]. rewrite lookup_insert_eq. eauto.
  - rewrite lookup_insert_ne by congruence. split; [auto|]. intros [H|[E _]]; [exact H | congruence].
Qed.

Lemma ratio_below_conservative_false (max_val total_val : Z) :
  ratio_below_conservative max_val total_val = false <-> 9 * total_val <= 10 * max_val.
Proof. unfold ratio_below_conservative. rewrite Z.ltb_ge. reflexivity. Qed.

Lemma first_pass_step_conservative (eligible_bodies : gset N) (st : merge_lists)
    (body2 : N) (bodydict : dict Z) :
  let st' := first_pass_step 1 eligible_bodies st (body2, bodydict) in
  merge_list st' = merge_list st /\ retired_list st' = retired_list st /\
  forall b1 b2,
    mutual_has (mutual_list st') b1 b2 <->
    mutual_has (mutual_list st) b1 b2 \/
    (b2 = body2 /\ body2 ∈ eligible_bodies /\
     exists max_val total_val,
       best_overlap bodydict = (Some b1, max_val, total_val) /\
       9 * total_val <= 10 * max_val).
Proof.
  unfold first_pass_step. case_bool_decide as Hel.
  2:{ repeat split; auto. intros [H|(_ & H & _)]; [exact H | contradiction]. }
  destruct (best_overlap bodydict) as [[[bodysave|] max_val] total_val] eqn:E.
  2:{ repeat split; auto. intros [H|(_ & _ & m & t & [=] & _)]. exact H. }
  cbn [Z.eqb andb Pos.eqb].
  destruct (ratio_below_conservative max_val total_val) eqn:Er.
  - repeat split; auto. intros [H|(_ & _ & m & t & Eb & Hr)]; [exact H|].
    inversion Eb; subst. apply ratio_below_conservative_false in Hr. congruence.
  - cbn [merge_list retired_list mutual_list]. repeat split.
    + intros H. apply mutual_has_insert in H as [H|[-> ->]]; [now left | right].
      repeat split; auto. exists max_val, total_val.
      split; [reflexivity | now apply ratio_below_conservative_false].
    + intros [H|(-> & _ & m & t & Eb & _)]; apply mutual_has_insert; [now left | right].
      inversion Eb. auto.
Qed.

Lemma first_pass_conservative (eligible_bodies : gset N) (body2body : dict (dict Z))
    (st : merge_lists) :
  let st' := fold_left (first_pass_step 1 eligible_bodies) body2body st in
  merge_list st' = merge_list st /\ retired_list st' = retired_list st /\
  forall b1 b2,
    mutual_has (mutual_list st') b1 b2 <->
    mutual_has (mutual_list st) b1 b2 \/ conservative_match eligible_bodies body2body b2 b1.
Proof.
  revert st. induction body2body as [|[body2 bodydict] d IH]; intros st; cbn [fold_left].
  - repeat split; auto. intros [H|(_ & ? & ? & ? & [] & _)]. exact H.
  - destruct (IH (first_pass_step 1 eligible_bodies st (body2, bodydict))) as (A & B & C).
    destruct (first_pass_step_conservative eligible_bodies st body2 bodydict) as (A' & B' & C').
    split; [congruence|]. split; [congruence|].
    intros b1 b2. rewrite C, C'. unfold conservative_match. split.
    + intros [[H|(-> & Hel & m & t & Eb & Hr)]|(Hel & bd & m & t & Hin & Eb & Hr)].
      * now left.
      * right. split; [exact Hel|]. exists bodydict, m, t. simpl. auto.
      * right. split; [exact Hel|]. exists bd, m, t. simpl. auto.
    + intros [H|(Hel & bd & m & t & [Hin|Hin] & Eb & Hr)].
      * left. now left.
      * inversion Hin; subst. left. right. eauto 8.
      * right. split; [exact Hel|]. eauto 8.
Qed.

Lemma second_pass_step_conservative (eligible_bodies : gset N) (st : merge_lists)
    (body1 : N) (bodydict : dict Z) :
  retired_list st = ∅ ->
  let st' := second_pass_step 1 eligible_bodies st (body1, bodydict) in
  mutual_list st' = mutual_list st /\ retired_list st' = retired_list st /\
  forall e,
    In e (merge_list st') <->
    In e (merge_list st) \/
    (fst e = body1 /\ body1 ∈ eligible_bodies /\
     (exists max_val total_val,
        best_overlap bodydict = (Some (snd e), max_val, total_val) /\
        9 * total_val <= 10 * max_val) /\
     mutual_has (mutual_list st) body1 (snd e)).
Proof.
  intros Hret. unfold second_pass_step. case_bool_decide as Hel.
  2:{ repeat split; auto. intros [H|(_ & H & _)]; [exact H | contradiction]. }
  destruct (best_overlap bodydict) as [[[bodysave|] max_val] total_val] eqn:E.
  2:{ repeat split; auto. intros [H|(_ & _ & (m & t & [=] & _) & _)]. exact H. }
  case_bool_decide as Hr; [rewrite Hret in Hr; set_solver|].
  cbn [Z.eqb andb Pos.eqb].
  destruct (ratio_below_conservative max_val total_val) eqn:Er.
  - repeat split; auto. intros [H|(_ & _ & (m & t & Eb & Hm) & _)]; [exact H|].
    inversion Eb; subst. apply ratio_below_conservative_false in Hm. congruence.
  - destruct (mutual_list st !! body1) as [partners|] eqn:Em.
    + destruct (partners !! bodysave) as [v|] eqn:Ep.
      * cbn [merge_list retired_list mutual_list]. repeat split.
        -- intros H. apply in_app_or in H as [H|[<-|[]]]; [now left | right]. simpl.
           repeat split; auto.
           ++ exists max_val, total_val.
              split; [reflexivity | now apply ratio_below_conservative_false].
           ++ exists partners. rewrite Ep. eauto.
        -- intros [H|(E1 & _ & (m & t & Eb & _) & _)]; apply in_or_app; [now left | right].
           left. destruct e as [e1 e2]. simpl in *. inversion Eb. congruence.
      * repeat split; auto. intros [H|(_ & _ & (m & t & Eb & _) & (ps & Eps & Hs))]; [exact H|].
        inversion Eb; subst. rewrite Em in Eps. inversion Eps; subst.
        rewrite Ep in Hs. now destruct Hs.
    + repeat split; auto. intros [H|(_ & _ & _ & (ps & Eps & _))]; [exact H|].
      rewrite Em in Eps. discriminate.
Qed.

Lemma second_pass_conservative (eligible_bodies : gset N) (body2body : dict (dict Z))
    (st : merge_lists) :
  retired_list st = ∅ ->
  let st' := fold_left (second_pass_step 1 eligible_bodies) body2body st in
  forall e,
    In e (merge_list st') <->
    In e (merge_list st) \/
    (conservative_match eligible_bodies body2body (fst e) (snd e) /\
     mutual_has (mutual_list st) (fst e) (snd e)).
Proof.
  revert st. induction body2body as [|[body1 bodydict] d IH]; intros st Hret; cbn [fold_left].
  - intros e. split; [auto|]. intros [H|[(_ & ? & ? & ? & [] & _) _]]. exact H.
  - destruct (second_pass_step_conservative eligible_bodies st body1 bodydict Hret)
      as (A & B & C).
    intros e. rewrite IH by congruence. rewrite C, A. unfold conservative_match. split.
    + intros [[H|(E1 & Hel & (m & t & Eb & Hr) & Hm)]|[(Hel & bd & m & t & Hin & Eb & Hr) Hm]].
      * now left.
      * right. split; [|now rewrite E1]. rewrite E1. split; [exact Hel|].
        exists bodydict, m, t. simpl. auto.
      * right. split; [|exact Hm]. split; [exact Hel|]. exists bd, m, t. simpl. auto.
    + intros [H|[(Hel & bd & m & t & [Hin|Hin] & Eb & Hr) Hm]].
      * left. now left.
      * inversion Hin; subst. left. right. repeat split; eauto.
      * right. split; [|exact Hm]. split; [exact Hel|]. eauto 8.
Qed.

Lemma count_overlaps_array (values : list N) (votes : list (N * N)) :
  (forall vote, In vote votes -> In (fst vote) values) ->
  exists d, count_overlaps (np_unique values) votes = Ok d.
Proof.
  intros H. destruct (count_overlaps_spec (np_unique values) votes) as (d & E & _).
  - intros vote Hv. apply In_np_unique. auto.
  - eauto.
Qed.

(** C4, amended. Conservative stitch mode criterion: with stitch mode 1,
    [stitcher] always returns, and it emits the candidate edge of a pair
    (body1 of the first boundary, body2 of the second) if and only if each
    of the two labels lies on the interface plane and has the other as its
    best-overlap counterpart, above the hard threshold of 50 voxels, with
    best / total >= 0.90: the match must be mutual.  The edge carries the
    offsets of the two subvolumes. *)
Theorem conservative_edge_iff_mutual_match
    (touches : Z -> Z -> Z -> Z -> bool)
    (subvolume1 subvolume2 : Subvolume) (boundary1 boundary2 : label_array) :
  let plane := interface_plane touches subvolume1 subvolume2 (lshape boundary1) in
  let votes := combine (array_values boundary1) (array_values boundary2) in
  let eligible1 : gset N :=
    list_to_set (np_unique (slice_values boundary1 (fst plane) (snd plane))) in
  let eligible2 : gset N :=
    list_to_set (np_unique (slice_values boundary2 (fst plane) (snd plane))) in
  exists merges votes1 votes2,
    count_overlaps (np_unique (array_values boundary1)) votes = Ok votes1 /\
    count_overlaps (np_unique (array_values boundary2))
                   (map (fun v => (snd v, fst v)) votes) = Ok votes2 /\
    local_merge_list touches 1 subvolume1 subvolume2 boundary1 boundary2 = Ok merges /\
    (forall body1 body2,
       In (body1, body2) merges <->
       conservative_match eligible1 votes1 body1 body2 /\
       conservative_match eligible2 votes2 body2 body1) /\
    (forall subvolume_offsets offset1 offset2,
       (roi_id subvolume1 <= roi_id subvolume2)%N ->
       lshape boundary1 = lshape boundary2 ->
       subvolume_offsets !! roi_id subvolume1 = Some offset1 ->
       subvolume_offsets !! roi_id subvolume2 = Some offset2 ->
       stitcher touches 1 subvolume_offsets
                [(subvolume1, boundary1); (subvolume2, boundary2)]
       = Ok (roi_id subvolume1,
             map (fun merger => (fst merger + offset1, snd merger + offset2)%N) merges)).
Proof.
  intros plane votes eligible1 eligible2.
  destruct (count_overlaps_array (array_values boundary1) votes) as (votes1 & E1).
  { intros [a b] Hv. simpl. eapply in_combine_l. exact Hv. }
  destruct (count_overlaps_array (array_values boundary2)
              (map (fun v => (snd v, fst v)) votes)) as (votes2 & E2).
  { intros vote Hv. apply in_map_iff in Hv as ([a b] & <- & Hv). simpl.
    eapply in_combine_r. exact Hv. }
  set (st1 := fold_left (first_pass_step 1 eligible2) votes2 (mkMergeLists [] ∅ ∅)).
  set (st2 := fold_left (second_pass_step 1 eligible1) votes1 st1).
  assert (Hlocal : local_merge_list touches 1 subvolume1 subvolume2 boundary1 boundary2
                   = Ok (merge_list st2)).
  { unfold local_merge_list. cbn [Z.ltb Z.compare].
    fold plane. fold votes. rewrite E2. cbn [rbind]. rewrite E1. cbn [rbind].
    reflexivity. }
  exists (merge_list st2), votes1, votes2.
  split; [exact E1|]. split; [exact E2|]. split; [exact Hlocal|]. split.
  - intros body1 body2.
    destruct (first_pass_conservative eligible2 votes2 (mkMergeLists [] ∅ ∅)) as (A & B & C).
    fold st1 in A, B, C. cbn [merge_list retired_list mutual_list] in A, B, C.
    unfold st2.
    rewrite (second_pass_conservative eligible1 votes1 st1 B (body1, body2)).
    rewrite A. cbn [fst snd]. rewrite C. split.
    + intros [[]|[H1 [(ps & Eps & _)|H2]]]; [|auto].
      rewrite lookup_empty in Eps. discriminate.
    + intros [H1 H2]. right. auto.
  - intros offsets offset1 offset2 Hle Hshape Ho1 Ho2. unfold stitcher.
    destruct (N.ltb_spec (roi_id subvolume2) (roi_id subvolume1)) as [Hlt|_]; [lia|].
    rewrite Hshape. rewrite (proj2 (v3eqb_eq _ _) eq_refl). cbn [negb].
    rewrite Hlocal. cbn [rbind]. rewrite Ho1, Ho2. reflexivity.
Qed.

(** C4, as stated, fails: label 1 of the first boundary has label 5 as its
    best-overlap counterpart, with 60 voxels (above the threshold of 50) and
    best / total = 60 / 60 >= 0.90, yet in conservative mode no edge is
    emitted for the pair (1, 5): the best counterpart of label 5 is label 2,
    so the match is not mutual.  The only edge is that of (2, 5), with the
    offsets 0 and 2 added. *)
Lemma conservative_edge_needs_mutual_match :
  count_overlaps (np_unique (array_values lower_boundary))
                 (combine (array_values lower_boundary) (array_values upper_boundary))
  = Ok [ (1%N, [(5%N, 60)]); (2%N, [(5%N, 600)]) ] /\
  best_overlap [(5%N, 60)] = (Some 5%N, 60, 60) /\
  hard_lb < 60 /\
  ratio_below_conservative 60 60 = false /\
  stitcher face_touches 1 (compute_offsets [lower_subvolume; upper_subvolume])
           [(lower_subvolume, lower_boundary); (upper_subvolume, upper_boundary)]
  = Ok (0%N, [(2%N, 7%N)]) /\
  ~ In ((1 + 0)%N, (5 + 2)%N) [(2%N, 7%N)].
Proof.
  repeat split; try (vm_compute; reflexivity).
  intros [H|[]]. discriminate.
Qed.

(** ** Relabelling and the background *)

Lemma identity_mappings_lookup (labels : list N) (l : N) :
  (list_to_map (map (fun l => (l, l)) labels) : gmap N N) !! l
  = if decide (l ∈ labels) then Some l else None.
Proof.
  induction labels as [|a labels IH]; cbn [map list_to_map foldr].
  - rewrite lookup_empty. case_decide as H; [|reflexivity]. now apply elem_of_nil in H.
  - cbn [fst snd uncurry]. destruct (decide (a = l)) as [->|Hne].
    + rewrite lookup_insert_eq. rewrite decide_True; [reflexivity | set_solver].
    + rewrite lookup_insert_ne by exact Hne. rewrite IH.
      repeat case_decide; try reflexivity; exfalso; set_solver.
Qed.

Lemma fold_mappings_lookup (master : list (N * N)) (label_mappings : gmap N N) (l : N) :
  NoDup (map fst master) ->
  fold_left (fun label_mappings mapping =>
               match label_mappings !! fst mapping with
               | Some _ => <[fst mapping := snd mapping]> label_mappings
               | None => label_mappings
               end)
            master label_mappings !! l
  = match label_mappings !! l with
    | Some v0 => Some (default v0 ((list_to_map master : gmap N N) !! l))
    | None => None
    end.
Proof.
  revert label_mappings. induction master as [|[k v] master IH]; intros lm Hnd; simpl.
  - rewrite lookup_empty. now destruct (lm !! l).
  - apply NoDup_cons in Hnd as [Hk Hnd]. rewrite IH by exact Hnd.
    destruct (decide (k = l)) as [->|Hne].
    + rewrite lookup_insert_eq.
      assert (Hnone : (list_to_map master : gmap N N) !! l = None).
      { apply not_elem_of_list_to_map_1. exact Hk. }
      rewrite Hnone. destruct (lm !! l) eqn:E.
      * now rewrite lookup_insert_eq.
      * now rewrite E.
    + rewrite (lookup_insert_ne _ k l) by exact Hne.
      destruct (lm !! k); [rewrite lookup_insert_ne by exact Hne|]; reflexivity.
Qed.

Lemma relabel_mappings_lookup (merge_list : list (N * N)) (labels : list N) (l : N) :
  relabel_mappings (master_merge_list merge_list) labels !! l
  = if decide (l ∈ labels) then Some (stitch_final_label merge_list l) else None.
Proof.
  unfold relabel_mappings, master_merge_list.
  rewrite fold_mappings_lookup by apply NoDup_fst_map_to_list.
  rewrite identity_mappings_lookup, list_to_map_to_list.
  destruct (decide (l ∈ np_unique labels)) as [Hin|Hnin].
  - rewrite decide_True; [reflexivity|].
    apply list_elem_of_In, In_np_unique, list_elem_of_In. exact Hin.
  - rewrite decide_False; [reflexivity|]. intros H. apply Hnin.
    apply list_elem_of_In, In_np_unique, list_elem_of_In. exact H.
Qed.

(** A label that no edge mentions is alone in its component. *)
Lemma connected_isolated (merge_list : list (N * N)) (x a b : N) :
  (forall e, In e merge_list -> fst e <> x /\ snd e <> x) ->
  connected merge_list a b -> (a = x <-> b = x).
Proof.
  intros Hx H. induction H as [a b Hab|a|a b _ IH|a b c _ IH1 _ IH2].
  - destruct (Hx _ Hab) as [H1 H2]. simpl in *. tauto.
  - tauto.
  - tauto.
  - tauto.
Qed.

Lemma stitch_final_label_background (merge_list : list (N * N)) :
  edges_nonzero merge_list -> stitch_final_label merge_list 0%N = 0%N.
Proof.
  intros Hnz. destruct (stitch_final_label_spec_helper merge_list) as [_ Hrep].
  apply (connected_isolated merge_list 0%N 0%N _ Hnz (Hrep 0%N)). reflexivity.
Qed.

Lemma relabel_background (merge_list : list (N * N)) (offset : N) (labels : label_array)
    (p : Vec3) :
  edges_nonzero merge_list ->
  ldata labels p = 0%N ->
  ldata (relabel offset (master_merge_list merge_list) labels) p = 0%N.
Proof.
  intros Hnz Hp. unfold relabel. cbn [ldata lshape]. rewrite Hp.
  rewrite N.add_0_l, N.eqb_refl. rewrite relabel_mappings_lookup.
  case_decide; [|reflexivity]. simpl. now apply stitch_final_label_background.
Qed.

(** The edges that [stitcher] returns: local labels, none of them 0, plus
    the offsets of the two subvolumes. *)
Lemma stitcher_edges (touches : Z -> Z -> Z -> Z -> bool) (stitch_mode : Z)
    (subvolume_offsets : gmap N N) (boundary_list : list (Subvolume * label_array))
    (id : N) (merges : list (N * N)) :
  stitcher touches stitch_mode subvolume_offsets boundary_list = Ok (id, merges) ->
  exists subvolume1 subvolume2 offset1 offset2,
    In subvolume1 (map fst boundary_list) /\ In subvolume2 (map fst boundary_list) /\
    (roi_id subvolume1 <= roi_id subvolume2)%N /\ id = roi_id subvolume1 /\
    subvolume_offsets !! roi_id subvolume1 = Some offset1 /\
    subvolume_offsets !! roi_id subvolume2 = Some offset2 /\
    forall e, In e merges ->
      exists body1 body2, body1 <> 0%N /\ body2 <> 0%N /\
                          e = ((body1 + offset1)%N, (body2 + offset2)%N).
Proof.
  unfold stitcher. intros H.
  destruct boundary_list as [|[sv_a boundary_a] [|[sv_b boundary_b] [|? ?]]]; try discriminate.
  destruct (N.ltb_spec (roi_id sv_b) (roi_id sv_a)) as [Hlt|Hge].
  - destruct (negb (v3eqb (lshape boundary_b) (lshape boundary_a))); [discriminate|].
    apply rbind_Ok_inv in H as (local & Hlocal & H).
    destruct (subvolume_offsets !! roi_id sv_b) as [offset1|] eqn:E1; [|discriminate].
    destruct (subvolume_offsets !! roi_id sv_a) as [offset2|] eqn:E2; [|discriminate].
    inversion H; subst id merges; clear H.
    exists sv_b, sv_a, offset1, offset2. simpl.
    repeat (split; [auto; lia|]).
    intros e He. apply in_map_iff in He as ([body1 body2] & <- & He).
    destruct (local_merge_list_nonzero _ _ _ _ _ _ _ Hlocal _ He). simpl in *. eauto.
  - destruct (negb (v3eqb (lshape boundary_a) (lshape boundary_b))); [discriminate|].
    apply rbind_Ok_inv in H as (local & Hlocal & H).
    destruct (subvolume_offsets !! roi_id sv_a) as [offset1|] eqn:E1; [|discriminate].
    destruct (subvolume_offsets !! roi_id sv_b) as [offset2|] eqn:E2; [|discriminate].
    inversion H; subst id merges; clear H.
    exists sv_a, sv_b, offset1, offset2. simpl.
    repeat (split; [auto; lia|]).
    intros e He. apply in_map_iff in He as ([body1 body2] & <- & He).
    destruct (local_merge_list_nonzero _ _ _ _ _ _ _ Hlocal _ He). simpl in *. eauto.
Qed.

Lemma stitch_merge_list_nonzero (touches : Z -> Z -> Z -> Z -> bool) (stitch_mode : Z)
    (subvolume_offsets : gmap N N) (grouped : list (list (Subvolume * label_array)))
    (merges : list (N * N)) :
  stitch_merge_list touches stitch_mode subvolume_offsets grouped = Ok merges ->
  edges_nonzero merges.
Proof.
  unfold stitch_merge_list. intros H.
  apply rbind_Ok_inv in H as (mappings & Hm & H). inversion H; subst merges; clear H.
  apply rmapM_Ok_inv in Hm. intros e He.
  apply in_concat in He as (ms & Hms & He).
  apply in_map_iff in Hms as ([id ms'] & <- & Hin). simpl in He.
  destruct (Forall2_In_r _ _ _ _ Hm Hin) as (boundary_list & _ & Hst).
  apply stitcher_edges in Hst as (_ & _ & o1 & o2 & _ & _ & _ & _ & _ & _ & Hedges).
  destruct (Hedges e He) as (b1 & b2 & H1 & H2 & ->). simpl. lia.
Qed.

(** C10. Stitching preserves the background: the overlap votes never count
    the label 0 (no key of the vote dictionaries, outer or inner, is 0);
    every candidate edge that [stitcher] returns is a pair of local labels
    other than 0, each with the offset of its subvolume added; and the
    relabelled chunks that [stitch] returns hold 0 at every voxel whose
    local label is 0. *)
Theorem stitch_preserves_background (touches : Z -> Z -> Z -> Z -> bool) (stitch_mode : Z) :
  (forall bodies votes body2body,
     count_overlaps bodies votes = Ok body2body -> votes_nonzero body2body) /\
  (forall subvolume_offsets boundary_list id merges,
     stitcher touches stitch_mode subvolume_offsets boundary_list = Ok (id, merges) ->
     exists subvolume1 subvolume2 offset1 offset2,
       In subvolume1 (map fst boundary_list) /\ In subvolume2 (map fst boundary_list) /\
       subvolume_offsets !! roi_id subvolume1 = Some offset1 /\
       subvolume_offsets !! roi_id subvolume2 = Some offset2 /\
       forall e, In e merges ->
         exists body1 body2, body1 <> 0%N /\ body2 <> 0%N /\
                             e = ((body1 + offset1)%N, (body2 + offset2)%N)) /\
  (forall label_chunks grouped_boundaries relabelled,
     stitch touches stitch_mode label_chunks grouped_boundaries = Ok relabelled ->
     Forall2 (fun chunk out =>
                fst out = fst chunk /\
                forall p, ldata (snd chunk) p = 0%N -> ldata (snd out) p = 0%N)
             label_chunks relabelled).
Proof.
  split; [|split].
  - intros bodies votes d. apply count_overlaps_nonzero.
  - intros offsets boundary_list id merges H.
    apply stitcher_edges in H as (sv1 & sv2 & o1 & o2 & H1 & H2 & _ & _ & E1 & E2 & He).
    exists sv1, sv2, o1, o2. auto.
  - intros chunks grouped relabelled H. unfold stitch in H.
    apply rbind_Ok_inv in H as (merges & Hm & H).
    apply stitch_merge_list_nonzero in Hm. apply rmapM_Ok_inv in H.
    eapply Forall2_impl; [exact H|]. intros [sv labels] out Hout. simpl in Hout.
    destruct (compute_offsets (map fst chunks) !! roi_id sv) as [offset|]; [|discriminate].
    inversion Hout; subst out. simpl. split; [reflexivity|].
    intros p Hp. now apply relabel_background.
Qed.

(** * Further properties of the code *)

(** ** [boxes_from_grid] *)

Lemma block_meets_interval (b o s e k : Z) :
  0 < b -> s < e ->
  (s - o) / b <= k < (e - o + b - 1) / b ->
  Z.max (o + k * b) s < Z.min (o + k * b + b) e.
Proof.
  intros Hb Hse [Hlo Hhi].
  pose proof (Z.mul_div_le (e - o + b - 1) b Hb).
  pose proof (Z.mul_succ_div_gt (s - o) b Hb).
  assert (k * b + b <= b * ((e - o + b - 1) / b)) by nia.
  assert (b * ((s - o) / b) <= k * b) by nia.
  lia.
Qed.

Lemma index_in_range_iff_intersect (bb : Box) (grid : Grid) (k : Vec3) :
  grid_positive grid -> box_nonempty bb ->
  index_in_range bb grid k <-> boxes_intersect (grid_block grid k) bb.
Proof.
  intros Hpos Hne. split.
  - intros (R0 & R1 & R2). destruct Hpos as (P0 & P1 & P2). destruct Hne as (N0 & N1 & N2).
    destruct grid as [[b0 b1 b2] [o0 o1 o2]], k as [k0 k1 k2],
             bb as [[s0 s1 s2] [e0 e1 e2]].
    simpl in *.
    pose proof (block_meets_interval b0 o0 s0 e0 k0 P0 N0 R0).
    pose proof (block_meets_interval b1 o1 s1 e1 k1 P1 N1 R1).
    pose proof (block_meets_interval b2 o2 s2 e2 k2 P2 N2 R2).
    exists (mk3 (Z.max (o0 + k0 * b0) s0) (Z.max (o1 + k1 * b1) s1) (Z.max (o2 + k2 * b2) s2)).
    unfold in_box, grid_block, v3add, v3map2; simpl. lia.
  - intros (p & Hblock & Hbb). apply (in_grid_block grid Hpos) in Hblock. subst k.
    now apply index_of_point_in_range.
Qed.

(** X1. For a grid with a positive block shape and a bounding box that holds
    a point, all coordinates, block shape and offset being at most [2^60] in
    absolute value (so that no [int64] operation overflows),
    [boxes_from_grid] returns, each once, exactly the blocks of the grid that
    intersect the bounding box. *)
Theorem boxes_from_grid_intersecting_blocks (bb : Box) (grid : Grid) :
  grid_positive grid -> grid_small grid -> box_small bb -> box_nonempty bb ->
  exists boxes,
    boxes_from_grid bb grid = Ok boxes /\
    List.NoDup boxes /\
    forall box, In box boxes <->
      (exists k, box = grid_block grid k) /\ boxes_intersect box bb.
Proof.
  intros Hpos Hg Hb Hne.
  destruct (boxes_from_grid_spec bb grid Hpos Hg Hb) as (l & E & Nl & Il).
  exists l. split; [exact E|]. split; [exact Nl|].
  intros box. rewrite Il. split.
  - intros (k & -> & Hk). split; [eauto|]. now apply index_in_range_iff_intersect.
  - intros [(k & ->) Hint]. exists k. split; [reflexivity|].
    now apply index_in_range_iff_intersect.
Qed.

Lemma boxes_from_grid_intersecting_blocks_witness :
  exists boxes,
    boxes_from_grid (mk3 0 1 3, mk3 1 4 9) (mkGrid (mk3 1 2 4) (mk3 0 1 1)) = Ok boxes /\
    List.NoDup boxes /\
    forall box, In box boxes <->
      (exists k, box = grid_block (mkGrid (mk3 1 2 4) (mk3 0 1 1)) k) /\
      boxes_intersect box (mk3 0 1 3, mk3 1 4 9).
Proof.
  apply (boxes_from_grid_intersecting_blocks (mk3 0 1 3, mk3 1 4 9)
           (mkGrid (mk3 1 2 4) (mk3 0 1 1))).
  - unfold grid_positive; simpl; lia.
  - unfold grid_small, v3within; rewrite coord_bound_eq; simpl; lia.
  - unfold box_small, v3within; rewrite coord_bound_eq; simpl; lia.
  - unfold box_nonempty; simpl; lia.
Defined.

(** ** [Grid.equivalent_to] *)

Lemma same_modulus (b o o' : Z) :
  0 < b -> np_mod o b = np_mod o' b -> exists m, o' = o + m * b.
Proof.
  intros Hb. rewrite !np_mod_pos by exact Hb. intros E.
  exists (o' / b - o / b).
  pose proof (Z.div_mod o b ltac:(lia)). pose proof (Z.div_mod o' b ltac:(lia)). nia.
Qed.

Lemma shifted_index_range (b o s e m k : Z) :
  0 < b ->
  ((s - (o + m * b)) / b <= k < (e - (o + m * b) + b - 1) / b) <->
  ((s - o) / b <= k + m < (e - o + b - 1) / b).
Proof.
  intros Hb.
  replace (s - (o + m * b)) with ((s - o) + (- m) * b) by ring.
  replace (e - (o + m * b) + b - 1) with ((e - o + b - 1) + (- m) * b) by ring.
  rewrite !Z.div_add by lia. lia.
Qed.

(** X2. Equivalent grids tile alike: when [equivalent_to] holds of two grids
    (with a positive block shape), [boxes_from_grid] returns the same boxes
    for both, for every bounding box, as long as the coordinates of the box,
    the block shape and the two offsets are at most [2^60] in absolute
    value (so that no [int64] operation overflows). *)
Theorem equivalent_grids_same_boxes (grid other_grid : Grid) (bb : Box) :
  grid_positive grid -> grid_small grid -> grid_small other_grid -> box_small bb ->
  equivalent_to grid other_grid = true ->
  exists boxes other_boxes,
    boxes_from_grid bb grid = Ok boxes /\
    boxes_from_grid bb other_grid = Ok other_boxes /\
    forall box, In box boxes <-> In box other_boxes.
Proof.
  intros Hpos Hg Hg' Hb Heq. unfold equivalent_to in Heq.
  apply andb_true_iff in Heq as [Hbs Hmod]. apply v3eqb_eq in Hbs, Hmod.
  assert (Hpos' : grid_positive other_grid) by (unfold grid_positive; now rewrite <- Hbs).
  destruct (boxes_from_grid_spec bb grid Hpos Hg Hb) as (l & E & _ & Il).
  destruct (boxes_from_grid_spec bb other_grid Hpos' Hg' Hb) as (l' & E' & _ & Il').
  clear Hg Hg' Hb.
  exists l, l'. split; [exact E|]. split; [exact E'|].
  destruct Hpos as (P0 & P1 & P2).
  destruct grid as [[b0 b1 b2] [o0 o1 o2]], other_grid as [bs' [o0' o1' o2']].
  simpl in Hbs. subst bs'. unfold modulus_offset, v3map2 in Hmod. simpl in *.
  inversion Hmod as [[M0 M1 M2]].
  destruct (same_modulus b0 o0 o0' P0 M0) as (m0 & ->).
  destruct (same_modulus b1 o1 o1' P1 M1) as (m1 & ->).
  destruct (same_modulus b2 o2 o2' P2 M2) as (m2 & ->).
  destruct bb as [[s0 s1 s2] [e0 e1 e2]].
  intros box. rewrite Il, Il'. split.
  - intros ([k0 k1 k2] & -> & R0 & R1 & R2). exists (mk3 (k0 - m0) (k1 - m1) (k2 - m2)).
    split.
    + unfold grid_block, v3add, v3map2; simpl. f_equal; f_equal; ring.
    + unfold index_in_range, v3add, v3sub, v3map2 in *; simpl in *.
      rewrite !shifted_index_range by assumption.
      replace (k0 - m0 + m0) with k0 by ring. replace (k1 - m1 + m1) with k1 by ring.
      replace (k2 - m2 + m2) with k2 by ring. auto.
  - intros ([k0 k1 k2] & -> & R0 & R1 & R2). exists (mk3 (k0 + m0) (k1 + m1) (k2 + m2)).
    split.
    + unfold grid_block, v3add, v3map2; simpl. f_equal; f_equal; ring.
    + unfold index_in_range, v3add, v3sub, v3map2 in *; simpl in *.
      rewrite !shifted_index_range in R0, R1, R2 by assumption. auto.
Qed.

Lemma equivalent_grids_same_boxes_witness :
  exists boxes other_boxes,
    boxes_from_grid (mk3 0 1 3, mk3 1 4 9) (mkGrid (mk3 1 2 4) (mk3 0 1 1)) = Ok boxes /\
    boxes_from_grid (mk3 0 1 3, mk3 1 4 9) (mkGrid (mk3 1 2 4) (mk3 5 (-1) 9)) = Ok other_boxes /\
    forall box, In box boxes <-> In box other_boxes.
Proof.
  apply (equivalent_grids_same_boxes (mkGrid (mk3 1 2 4) (mk3 0 1 1))
           (mkGrid (mk3 1 2 4) (mk3 5 (-1) 9)) (mk3 0 1 3, mk3 1 4 9)).
  - unfold grid_positive; simpl; lia.
  - unfold grid_small, v3within; rewrite coord_bound_eq; simpl; lia.
  - unfold grid_small, v3within; rewrite coord_bound_eq; simpl; lia.
  - unfold box_small, v3within; rewrite coord_bound_eq; simpl; lia.
  - reflexivity.
Defined.

(** ** [generate_bricks_from_volume_source] *)

Lemma clipped_block_ordered (bb : Box) (grid : Grid) (k : Vec3) :
  grid_positive grid -> v3le (fst bb) (snd bb) -> index_in_range bb grid k ->
  v3le (fst (box_intersection (grid_block grid k) bb))
       (snd (box_intersection (grid_block grid k) bb)).
Proof.
  intros (P0 & P1 & P2) (S0 & S1 & S2) (R0 & R1 & R2).
  destruct grid as [[b0 b1 b2] [o0 o1 o2]], k as [k0 k1 k2],
           bb as [[s0 s1 s2] [e0 e1 e2]]. simpl in *.
  pose proof (clipped_block_extent b0 o0 s0 e0 k0 P0 S0 R0).
  pose proof (clipped_block_extent b1 o1 s1 e1 k1 P1 S1 R1).
  pose proof (clipped_block_extent b2 o2 s2 e2 k2 P2 S2 R2).
  unfold v3le, box_intersection, grid_block, v3add, v3map2; simpl. lia.
Qed.

(** X3. Generation yields a wall that covers the bounding box: for a grid
    with a positive block shape, a bounding box with start <= stop (all
    coordinates, block shape and offset being at most [2^60] in absolute
    value, so that no [int64] operation overflows) and a volume accessor that
    returns a volume of the shape of the box it is asked for,
    [generate_bricks_from_volume_source] returns one brick per
    block of the grid that [boxes_from_grid] lists; the bricks form a wall on
    the grid, the physical box of each is its logical box clipped to the
    bounding box, its volume is what the accessor returned for that box, and
    the physical boxes cover the bounding box and nothing else. *)
Theorem generate_bricks_covers_bounding_box
    (bounding_box : Box) (grid : Grid) (f : Box -> ndarray) :
  grid_positive grid -> grid_small grid -> box_small bounding_box ->
  v3le (fst bounding_box) (snd bounding_box) ->
  (forall box, v3le (fst box) (snd box) -> shape (f box) = box_extent box) ->
  exists bricks boxes,
    generate_bricks_from_volume_source bounding_box grid f = Ok bricks /\
    boxes_from_grid bounding_box grid = Ok boxes /\
    map logical_box bricks = boxes /\
    wall_on_grid grid bricks /\
    (forall b, In b bricks ->
       physical_box b = box_intersection (logical_box b) bounding_box /\
       volume b = f (physical_box b)) /\
    (forall p, in_box p bounding_box <-> exists b, In b bricks /\ in_box p (physical_box b)).
Proof.
  intros Hpos Hg Hsmall Hbb Hf.
  destruct (boxes_from_grid_spec bounding_box grid Hpos Hg Hsmall) as (l & E & Nl & Il).
  set (mk := fun box => mkBrick box (box_intersection box bounding_box)
                                (f (box_intersection box bounding_box))).
  assert (Hok : forall box, In box l -> brick_ok (mk box)).
  { intros box Hin. apply Il in Hin as (k & -> & Hk).
    pose proof (clipped_block_ordered bounding_box grid k Hpos Hbb Hk) as Hord.
    unfold brick_ok, brick_invariant. cbn [mk volume physical_box logical_box].
    rewrite (Hf _ Hord). split; [|split; [reflexivity|]].
    - destruct (box_intersection (grid_block grid k) bounding_box) as [[] []].
      unfold shape_ok, box_extent, v3le, v3sub, v3map2 in *; simpl in *. lia.
    - destruct (grid_block grid k) as [[] []], bounding_box as [[] []].
      unfold v3le, box_intersection, v3map2; simpl. lia. }
  assert (Hgen : generate_bricks_from_volume_source bounding_box grid f = Ok (map mk l)).
  { unfold generate_bricks_from_volume_source. rewrite E. cbn [rbind].
    rewrite (rmapM_Ok_map _ (fun lp => mk (fst lp))).
    - now rewrite map_map.
    - intros [lbox pbox] Hin. apply in_map_iff in Hin as (box & Ebox & Hin).
      inversion Ebox; subst. cbn [fst snd]. apply Brick_init_Ok.
      exact (proj2 (Hok _ Hin)). }
  exists (map mk l), l. split; [exact Hgen|]. split; [exact E|].
  assert (Hlog : map logical_box (map mk l) = l).
  { rewrite map_map. simpl. apply List.map_id. }
  split; [exact Hlog|]. split; [|split].
  - split; [|split].
    + apply List.Forall_forall. intros b Hb. apply in_map_iff in Hb as (box & <- & Hin). auto.
    + apply List.Forall_forall. intros b Hb. apply in_map_iff in Hb as (box & <- & Hin).
      apply Il in Hin as (k & -> & _). exists k. reflexivity.
    + rewrite Hlog. exact Nl.
  - intros b Hb. apply in_map_iff in Hb as (box & <- & Hin). simpl. auto.
  - intros p. split.
    + intros Hp. exists (mk (grid_block grid (grid_index_of grid p))). split.
      * apply in_map. apply Il. eexists; split; [reflexivity|].
        now apply index_of_point_in_range.
      * simpl. apply in_box_intersection. split; [now apply in_grid_block | exact Hp].
    + intros (b & Hb & Hp). apply in_map_iff in Hb as (box & <- & _). simpl in Hp.
      now apply in_box_intersection in Hp.
Qed.

Lemma generate_bricks_covers_bounding_box_witness :
  let bb : Box := (mk3 0 0 1, mk3 2 2 5) in
  let grid := mkGrid (mk3 2 2 4) (mk3 0 0 0) in
  let f := fun box : Box => mkArray (box_extent box) uint8 (fun p => c2 p) in
  exists bricks boxes,
    generate_bricks_from_volume_source bb grid f = Ok bricks /\
    boxes_from_grid bb grid = Ok boxes /\
    map logical_box bricks = boxes /\
    wall_on_grid grid bricks /\
    (forall b, In b bricks ->
       physical_box b = box_intersection (logical_box b) bb /\
       volume b = f (physical_box b)) /\
    (forall p, in_box p bb <-> exists b, In b bricks /\ in_box p (physical_box b)).
Proof.
  intros bb grid f. apply (generate_bricks_covers_bounding_box bb grid f).
  - unfold grid_positive; simpl; lia.
  - unfold grid_small, v3within; rewrite coord_bound_eq; simpl; lia.
  - unfold box_small, v3within; rewrite coord_bound_eq; simpl; lia.
  - unfold v3le; simpl; lia.
  - intros box _. reflexivity.
Defined.

(** ** [split_brick] *)

(** X4. Splitting loses and duplicates nothing: for a brick that satisfies
    the brick invariant and a new grid with a positive block shape (the
    coordinates of the physical box, the block shape and the offset being at
    most [2^60] in absolute value, so that no [int64] operation overflows),
    [split_brick] returns fragments that are bricks of the new grid, each
    keyed by its own logical box; their physical boxes are pairwise
    disjoint and lie in the physical box of the brick, every voxel of the
    brick lies in a fragment, and a fragment holds the voxels of the brick. *)
Theorem split_brick_partitions_brick (new_grid : Grid) (b : Brick) :
  grid_positive new_grid -> grid_small new_grid ->
  brick_ok b -> box_small (physical_box b) ->
  exists fragments,
    split_brick new_grid b = Ok fragments /\
    List.NoDup (map fst fragments) /\
    (forall kv, In kv fragments ->
       logical_box (snd kv) = fst kv /\
       (exists k, fst kv = grid_block new_grid k) /\
       brick_ok (snd kv) /\
       forall p, in_box p (physical_box (snd kv)) ->
         in_box p (physical_box b) /\ brick_voxel (snd kv) p = brick_voxel b p) /\
    pairwise_disjoint (map snd fragments) /\
    (forall p, in_box p (physical_box b) ->
       exists kv, In kv fragments /\ in_box p (physical_box (snd kv))).
Proof.
  intros Hpos Hg Hok Hsmall.
  destruct (split_brick_spec new_grid b Hpos Hg Hok Hsmall) as (l & _ & E & Nl & Il).
  eexists. split; [exact E|]. split; [|split; [|split]].
  - rewrite map_map. simpl. now rewrite List.map_id.
  - intros kv Hkv. apply in_map_iff in Hkv as (box & <- & Hbox). simpl.
    apply Il in Hbox as (k & -> & Hk). split; [reflexivity|]. split; [eauto|].
    split; [now apply split_fragment_ok|].
    intros p Hp. split.
    + now apply (split_fragment_physical_subset b _ p) in Hp.
    + apply split_fragment_voxel.
  - unfold pairwise_disjoint. rewrite map_map. simpl. apply ForallOrdPairs_map.
    rewrite <- (map_id l) in Nl. apply NoDup_map_ForallOrdPairs in Nl.
    eapply ForallOrdPairs_impl_In; [|exact Nl].
    intros x y Hx Hy Hne p [Hpx Hpy]. simpl in Hne.
    apply split_fragment_physical_subset in Hpx as [Hpx _], Hpy as [Hpy _].
    apply Il in Hx as (kx & -> & _). apply Il in Hy as (ky & -> & _).
    apply (in_grid_block new_grid Hpos) in Hpx, Hpy. congruence.
  - intros p Hp.
    exists (grid_block new_grid (grid_index_of new_grid p),
            split_fragment b (grid_block new_grid (grid_index_of new_grid p))).
    split.
    + apply in_map_iff. eexists; split; [reflexivity|]. apply Il.
      eexists; split; [reflexivity|]. now apply index_of_point_in_range.
    + simpl. apply in_box_intersection. split; [now apply in_grid_block | exact Hp].
Qed.

Lemma split_brick_partitions_brick_witness :
  let new_grid := mkGrid (mk3 1 1 3) (mk3 0 0 1) in
  let b := mkBrick (mk3 0 0 0, mk3 1 1 8) (mk3 0 0 2, mk3 1 1 7)
                   (mkArray (mk3 1 1 5) uint8 (fun p => 10 + c2 p)) in
  exists fragments,
    split_brick new_grid b = Ok fragments /\
    List.NoDup (map fst fragments) /\
    (forall kv, In kv fragments ->
       logical_box (snd kv) = fst kv /\
       (exists k, fst kv = grid_block new_grid k) /\
       brick_ok (snd kv) /\
       forall p, in_box p (physical_box (snd kv)) ->
         in_box p (physical_box b) /\ brick_voxel (snd kv) p = brick_voxel b p) /\
    pairwise_disjoint (map snd fragments) /\
    (forall p, in_box p (physical_box b) ->
       exists kv, In kv fragments /\ in_box p (physical_box (snd kv))).
Proof.
  intros new_grid b. apply (split_brick_partitions_brick new_grid b).
  - unfold grid_positive; simpl; lia.
  - unfold grid_small, v3within; rewrite coord_bound_eq; simpl; lia.
  - unfold brick_ok, brick_invariant, shape_ok, v3le; simpl. repeat split; lia.
  - unfold box_small, v3within; rewrite coord_bound_eq; simpl; lia.
Defined.

(** ** [pad_brick_data_from_volume_source] *)

Section PadAxis.
Variables b o : Z.
Hypothesis b_pos : 0 < b.




End PadAxis.













(** ** The final labels *)

(** X8. The merge map can be applied once: the final label of a final label
    is that label itself; and a label that no candidate edge mentions keeps
    its value. *)
Theorem stitch_final_label_stable (merge_list : list (N * N)) :
  (forall x, stitch_final_label merge_list (stitch_final_label merge_list x)
             = stitch_final_label merge_list x) /\
  (forall x, (forall e, In e merge_list -> fst e <> x /\ snd e <> x) ->
             stitch_final_label merge_list x = x).
Proof.
  destruct (global_merge_spec merge_list) as (Hinv & _ & Hrep). split.
  - intros x. unfold stitch_final_label. apply (find_label_root _ x Hinv).
  - intros x Hx. apply (connected_isolated merge_list x x _ Hx (Hrep x)). reflexivity.
Qed.

(** ** [stitcher]: its input *)

(** X9. [stitcher] does not depend on the order in which the two boundary
    slabs of a pair arrive: for two subvolumes with different [roi_id]s it
    returns the same result for both orders. *)
Theorem stitcher_order_independent (touches : Z -> Z -> Z -> Z -> bool) (stitch_mode : Z)
    (subvolume_offsets : gmap N N) (a b : Subvolume * label_array) :
  roi_id (fst a) <> roi_id (fst b) ->
  stitcher touches stitch_mode subvolume_offsets [a; b]
  = stitcher touches stitch_mode subvolume_offsets [b; a].
Proof.
  intros Hne. destruct a as [sv_a bd_a], b as [sv_b bd_b]. simpl in Hne.
  unfold stitcher.
  destruct (N.ltb_spec (roi_id sv_b) (roi_id sv_a)), (N.ltb_spec (roi_id sv_a) (roi_id sv_b));
    try reflexivity; lia.
Qed.

Lemma stitcher_order_independent_witness :
  stitcher face_touches 2 (compute_offsets [lower_subvolume; upper_subvolume])
           [(lower_subvolume, lower_boundary); (upper_subvolume, upper_boundary)]
  = stitcher face_touches 2 (compute_offsets [lower_subvolume; upper_subvolume])
             [(upper_subvolume, upper_boundary); (lower_subvolume, lower_boundary)].
Proof.
  apply (stitcher_order_independent face_touches 2
           (compute_offsets [lower_subvolume; upper_subvolume])
           (lower_subvolume, lower_boundary) (upper_subvolume, upper_boundary)).
  discriminate.
Defined.

(** ** [extract_boundaries]: [intersects] *)

(** X10. [intersects] crops both ranges to the same region: when it returns
    [(a1, a2, b1, b2)], the range [a1, a2) in the coordinates of the first
    range and the range [b1, b2) in those of the second are one global
    range, which starts at the larger start and stops at the smaller stop;
    the crops start at or after 0; and with the two ranges exchanged it
    returns the two crops exchanged (or raises the same exception). *)
Theorem intersects_same_region (pt1 pt2 pt1_2 pt2_2 : Z) :
  (forall a1 a2 b1 b2,
     intersects pt1 pt2 pt1_2 pt2_2 = Ok (a1, a2, b1, b2) ->
     pt1 <= pt2 /\ pt1_2 <= pt2_2 /\
     0 <= a1 /\ 0 <= b1 /\
     pt1 + a1 = Z.max pt1 pt1_2 /\ pt1_2 + b1 = Z.max pt1 pt1_2 /\
     pt1 + a2 = Z.min pt2 pt2_2 /\ pt1_2 + b2 = Z.min pt2 pt2_2) /\
  intersects pt1_2 pt2_2 pt1 pt2
  = match intersects pt1 pt2 pt1_2 pt2_2 with
    | Ok (a1, a2, b1, b2) => Ok (b1, b2, a1, a2)
    | Raise e => Raise e
    end.
Proof.
  unfold intersects. split.
  - intros a1 a2 b1 b2.
    destruct (Z.ltb_spec pt2 pt1); [discriminate|].
    destruct (Z.ltb_spec pt2_2 pt1_2); [discriminate|].
    intros E. inversion E; subst. lia.
  - destruct (Z.ltb_spec pt2 pt1), (Z.ltb_spec pt2_2 pt1_2); try reflexivity.
    rewrite (Z.max_comm pt1_2 pt1), (Z.min_comm pt2_2 pt2). reflexivity.
Qed.
